(** * Zone-label extraction: a shallow embedding of [extract_zones.py]

    The development follows the source file top to bottom:

    - [Chars]: Python [str] values as lists of code points.  A code point is
      an [ascii], read as a Latin-1 character (0..255); the character tables
      ([\s], [\d], [\w], [str.lower], the line boundaries of
      [str.splitlines]) are the ones CPython uses on that range.
    - [Re]: the fragment of Python's [re] module the program uses, as a
      backtracking matcher with the priorities of the real engine (leftmost
      alternative first, greedy repetition, first match wins), [re.match] and
      [re.sub].
    - [Str]: [str.replace], [str.strip], [str.lower], [in], [str.splitlines].
    - [_clean_line] and [extract_zones], statement by statement.
    - [Crop]: the crop window [int(w * 0.50)] ..., with binary64
      multiplication written out on integers. *)

From Stdlib Require Import Ascii String List ZArith Lia Bool Arith.
Import ListNotations.

Local Open Scope list_scope.

(* ================================================================== *)
(** ** Characters and strings *)

Module Chars.

(** A Python [str]: a sequence of code points. *)
Definition str := list ascii.

(** A literal of the source, as a [str]. *)
Definition lit (s : string) : str := list_ascii_of_string s.

Definition code (c : ascii) : nat := nat_of_ascii c.

Definition between (lo hi : nat) (c : ascii) : bool :=
  (lo <=? code c) && (code c <=? hi).

Definition LF : ascii := ascii_of_nat 10.
Definition CR : ascii := ascii_of_nat 13.
Definition DQUOTE : ascii := ascii_of_nat 34.

(** [str.isspace] on one character, which is also [\s] of a [str] pattern:
    TAB LF VT FF CR, FS GS RS US, SPACE, NEL, NBSP. *)
Definition is_space (c : ascii) : bool :=
  between 9 13 c || between 28 31 c || (code c =? 32) || (code c =? 133)
  || (code c =? 160).

(** [\d] of a [str] pattern. *)
Definition is_digit (c : ascii) : bool := between 48 57 c.

(** [\w] of a [str] pattern: alphanumeric, or the underscore. *)
Definition is_word (c : ascii) : bool :=
  between 48 57 c || between 65 90 c || (code c =? 95) || between 97 122 c
  || (code c =? 170) || between 178 179 c || (code c =? 181)
  || between 185 186 c || between 188 190 c || between 192 214 c
  || between 216 246 c || between 248 255 c.

(** [str.lower] on one character. *)
Definition lower_char (c : ascii) : ascii :=
  if between 65 90 c || between 192 214 c || between 216 222 c
  then ascii_of_nat (code c + 32) else c.

(** The characters at which [str.splitlines] ends a line:
    LF VT FF CR, FS GS RS, NEL. *)
Definition is_linebreak (c : ascii) : bool :=
  between 10 13 c || between 28 30 c || (code c =? 133).

End Chars.
Export Chars.

(* ================================================================== *)
(** ** The regular expressions of the program *)

Module Re.

(** An item of a bracketed set. *)
Inductive citem :=
| IChar (c : ascii)
| ISpace.                        (* \s inside a set *)

(** What one pattern position accepts. *)
Inductive cset :=
| CLit (c : ascii)               (* the character itself *)
| CLitI (c : ascii)              (* the character under re.IGNORECASE *)
| CAny                           (* .   (no DOTALL: anything but LF) *)
| CDigit                         (* \d *)
| CSpace                         (* \s *)
| CIn (l : list citem)           (* [...] *)
| CNotIn (l : list citem).       (* [^...] *)

Definition imatch (i : citem) (c : ascii) : bool :=
  match i with
  | IChar d => Ascii.eqb d c
  | ISpace => is_space c
  end.

Definition cmatch (cs : cset) (c : ascii) : bool :=
  match cs with
  | CLit d => Ascii.eqb d c
  | CLitI d => Ascii.eqb (lower_char d) (lower_char c)
  | CAny => negb (Ascii.eqb c LF)
  | CDigit => is_digit c
  | CSpace => is_space c
  | CIn l => existsb (fun i => imatch i c) l
  | CNotIn l => negb (existsb (fun i => imatch i c) l)
  end.

(** Patterns.  Every repetition of the program is applied to a single
    pattern position ([\s+], [[^)]*], [.*], [\)+], ...), which is what
    [RStar] and [RPlus] take. *)
Inductive regex :=
| REps
| RChar (cs : cset)
| RStar (cs : cset)              (* cs*  greedy *)
| RPlus (cs : cset)              (* cs+  greedy *)
| ROpt (r : regex)               (* r?   greedy *)
| RSeq (r1 r2 : regex)
| RAlt (r1 r2 : regex)           (* r1|r2 *)
| RGroup (i : nat) (r : regex)   (* the i-th capturing group *)
| RBol                           (* ^   (no MULTILINE) *)
| REol                           (* $   (no MULTILINE) *)
| RWordB.                        (* \b *)

(** Captured groups, latest first. *)
Definition caps := list (nat * str).

Fixpoint group (i : nat) (g : caps) : str :=
  match g with
  | [] => []
  | (j, s) :: g' => if Nat.eqb i j then s else group i g'
  end.

(** The matcher runs in continuation-passing style: [k] is what remains to
    be matched after [r]; a [None] from [k] makes [r] try its next
    alternative.  [n] counts the characters consumed since the start of the
    match, [prev] is the character before the current position. *)
Definition cont := nat -> option ascii -> str -> caps -> option (nat * caps).

Definition word_before (prev : option ascii) : bool :=
  match prev with Some c => is_word c | None => false end.

Definition word_after (s : str) : bool :=
  match s with c :: _ => is_word c | [] => false end.

Fixpoint star (cs : cset) (k : cont) (n : nat) (prev : option ascii)
         (s : str) (g : caps) {struct s} : option (nat * caps) :=
  match s with
  | c :: s' =>
      if cmatch cs c then
        match star cs k (S n) (Some c) s' g with
        | Some x => Some x
        | None => k n prev s g
        end
      else k n prev s g
  | [] => k n prev s g
  end.

Fixpoint run (r : regex) (n : nat) (prev : option ascii) (s : str)
         (g : caps) (k : cont) {struct r} : option (nat * caps) :=
  match r with
  | REps => k n prev s g
  | RChar cs =>
      match s with
      | c :: s' => if cmatch cs c then k (S n) (Some c) s' g else None
      | [] => None
      end
  | RStar cs => star cs k n prev s g
  | RPlus cs =>
      match s with
      | c :: s' => if cmatch cs c then star cs k (S n) (Some c) s' g else None
      | [] => None
      end
  | ROpt r1 =>
      match run r1 n prev s g k with
      | Some x => Some x
      | None => k n prev s g
      end
  | RSeq r1 r2 =>
      run r1 n prev s g (fun n' p' s' g' => run r2 n' p' s' g' k)
  | RAlt r1 r2 =>
      match run r1 n prev s g k with
      | Some x => Some x
      | None => run r2 n prev s g k
      end
  | RGroup i r1 =>
      run r1 n prev s g
          (fun n' p' s' g' => k n' p' s' ((i, firstn (n' - n) s) :: g'))
  | RBol => match prev with None => k n prev s g | Some _ => None end
  | REol =>
      match s with
      | [] => k n prev s g
      | [c] => if Ascii.eqb c LF then k n prev s g else None
      | _ => None
      end
  | RWordB =>
      if xorb (word_before prev) (word_after s) then k n prev s g else None
  end.

(** One match attempt at the current position: the length of the match and
    its groups.  [must_advance] refuses an empty match, as [re.sub] asks
    right after an empty match. *)
Definition match_at (r : regex) (must_advance : bool) (prev : option ascii)
           (s : str) : option (nat * caps) :=
  run r 0 prev s []
      (fun n _ _ g => if must_advance && (n =? 0) then None else Some (n, g)).

(** [re.match(r, s)]: a match at the start of [s]. *)
Definition re_match (r : regex) (s : str) : option (nat * caps) :=
  match_at r false None s.

(** Replacement templates: literal text and [\i] / [\g<i>]. *)
Inductive titem :=
| TLit (s : str)
| TGroup (i : nat).

Definition expand (t : list titem) (g : caps) : str :=
  flat_map (fun i => match i with TLit s => s | TGroup j => group j g end) t.

(** [re.sub(r, t, s)]: the matches are found left to right and do not
    overlap.  [skip] is the number of characters of the last match that
    are still to be passed over.  After an empty match the engine asks for
    a non-empty one at the same position before it moves on. *)
Fixpoint sub_from (r : regex) (t : list titem) (prev : option ascii)
         (s : str) (skip : nat) {struct s} : str :=
  match s with
  | [] =>
      match match_at r false prev [] with
      | Some (_, g) => expand t g
      | None => []
      end
  | c :: s' =>
      match skip with
      | S j => sub_from r t (Some c) s' j
      | O =>
          match match_at r false prev s with
          | Some (S j, g) => expand t g ++ sub_from r t (Some c) s' j
          | Some (O, g) =>
              expand t g ++
              match match_at r true prev s with
              | Some (S j, g') => expand t g' ++ sub_from r t (Some c) s' j
              | _ => c :: sub_from r t (Some c) s' 0
              end
          | None => c :: sub_from r t (Some c) s' 0
          end
      end
  end.

Definition re_sub (r : regex) (t : list titem) (s : str) : str :=
  sub_from r t None s 0.

(** Pattern builders. *)
Definition rseq (l : list regex) : regex := fold_right RSeq REps l.

(** A sequence of pattern positions. *)
Definition chars (cs : list cset) : regex := rseq (map RChar cs).

(** Literal text, and literal text under [re.IGNORECASE]. *)
Definition literally (s : string) : list cset :=
  map CLit (list_ascii_of_string s).

Definition literally_i (s : string) : list cset :=
  map CLitI (list_ascii_of_string s).

Definition rlit (s : string) : regex := chars (literally s).

Definition rlit_i (s : string) : regex := chars (literally_i s).

(** [\bcs\b] *)
Definition bounded (cs : list cset) : regex :=
  rseq [RWordB; chars cs; RWordB].

Fixpoint ralt (l : list regex) : regex :=
  match l with
  | [] => REps
  | [r] => r
  | r :: l' => RAlt r (ralt l')
  end.

End Re.
Export Re.

(* ================================================================== *)
(** ** The [str] methods of the program *)

Module Str.

Fixpoint starts_with (p s : str) : bool :=
  match p, s with
  | [], _ => true
  | a :: p', b :: s' => Ascii.eqb a b && starts_with p' s'
  | _ :: _, [] => false
  end.

(** [p in s] *)
Fixpoint contains (p s : str) : bool :=
  starts_with p s ||
  match s with
  | [] => false
  | _ :: s' => contains p s'
  end.

(** [s.replace(old, new)] for a non-empty [old]: the occurrences are taken
    left to right and do not overlap. *)
Fixpoint replace_from (old new s : str) (skip : nat) {struct s} : str :=
  match s with
  | [] => []
  | c :: s' =>
      match skip with
      | S j => replace_from old new s' j
      | O =>
          if starts_with old s
          then new ++ replace_from old new s' (length old - 1)
          else c :: replace_from old new s' 0
      end
  end.

Definition replace (old new s : str) : str := replace_from old new s 0.

Fixpoint lstrip (s : str) : str :=
  match s with
  | c :: s' => if is_space c then lstrip s' else s
  | [] => []
  end.

Definition rstrip (s : str) : str := rev (lstrip (rev s)).

(** [s.strip()] *)
Definition strip (s : str) : str := rstrip (lstrip s).

(** [s.lower()] *)
Definition lower (s : str) : str := map lower_char s.

(** [s.splitlines()]: [cur] is the line being read.  CR LF is one line
    boundary; a last line without a boundary is kept when it is not
    empty. *)
Fixpoint splitlines_from (cur s : str) {struct s} : list str :=
  match s with
  | [] => match cur with [] => [] | _ => [cur] end
  | c :: s' =>
      if is_linebreak c then
        match s' with
        | d :: s'' =>
            if Ascii.eqb c CR && Ascii.eqb d LF
            then cur :: splitlines_from [] s''
            else cur :: splitlines_from [] s'
        | [] => [cur]
        end
      else splitlines_from (cur ++ [c]) s'
  end.

Definition splitlines (s : str) : list str := splitlines_from [] s.

End Str.
Export Str.

(* ================================================================== *)
(** ** [_clean_line] *)

Module Patterns.

(** [^[|!Q\'\s,.;:]+], where Q stands for the double quote *)
Definition leading_noise : regex :=
  RSeq RBol
       (RPlus (CIn [IChar "|"; IChar "!"; IChar DQUOTE; IChar "'"; ISpace;
                    IChar ","; IChar "."; IChar ";"; IChar ":"])).

(** [(\d)UU] *)
Definition digit_UU : regex := RSeq (RGroup 1 (RChar CDigit)) (rlit "UU").

(** [(\d)0C] *)
Definition digit_0C : regex := RSeq (RGroup 1 (RChar CDigit)) (rlit "0C").

(** [\bw\b] *)
Definition word (w : string) : regex := bounded (literally w).

(** [\bw\b] under [re.IGNORECASE] *)
Definition word_i (w : string) : regex := bounded (literally_i w).

(** [\bRanges?\s+E] *)
Definition ranges_E : regex :=
  rseq [RWordB; rlit "Range"; ROpt (RChar (CLit "s")); RPlus CSpace;
        RChar (CLit "E")].

(** The garbled renderings of Exhaustion, in the order of the source. *)
Definition exhaustion_variants : list string :=
  ["Evhauetinn"; "Exnaustion"; "Frhaustian"; "CAnausuon";
   "CAnaustion"; "CANausiCn"; "CANaUuSIVN"; "Fehaustion";
   "Frhaustinn"; "Exnausuon"; "Fxhaustion"]%string.

(** [(?:Confirming|Changing|Weakness|Strength)] *)
Definition bias_word : regex :=
  ralt [rlit "Confirming"; rlit "Changing"; rlit "Weakness"; rlit "Strength"].

(** [\(([^)]*(?:Confirming|Changing|Weakness|Strength))\s+[Zz]on[aegkno]\)?\s*$] *)
Definition zone_ending : regex :=
  rseq [RChar (CLit "(");
        RGroup 1 (RSeq (RStar (CNotIn [IChar ")"])) bias_word);
        RPlus CSpace;
        RChar (CIn [IChar "Z"; IChar "z"]); rlit "on";
        RChar (CIn [IChar "a"; IChar "e"; IChar "g"; IChar "k"; IChar "n";
                    IChar "o"]);
        ROpt (RChar (CLit ")")); RStar CSpace; REol].

(** [\(([^)]*(?:Confirming|Changing|Weakness|Strength))\s+[Zz]cne\)?\s*$] *)
Definition zcne_ending : regex :=
  rseq [RChar (CLit "(");
        RGroup 1 (RSeq (RStar (CNotIn [IChar ")"])) bias_word);
        RPlus CSpace;
        RChar (CIn [IChar "Z"; IChar "z"]); rlit "cne";
        ROpt (RChar (CLit ")")); RStar CSpace; REol].

(** [\(([^)]*(?:Zone|Weakness|Strength))\s*$] *)
Definition unclosed_paren : regex :=
  rseq [RChar (CLit "(");
        RGroup 1 (RSeq (RStar (CNotIn [IChar ")"]))
                       (ralt [rlit "Zone"; rlit "Weakness"; rlit "Strength"]));
        RStar CSpace; REol].

(** [\)\)+] *)
Definition close_parens : regex := RSeq (RChar (CLit ")")) (RPlus (CLit ")")).

(** [(.*\))] *)
Definition upto_close_paren : regex :=
  RGroup 1 (RSeq (RStar CAny) (RChar (CLit ")"))).

(** [(\d)\s+\.] *)
Definition digit_space_point : regex :=
  rseq [RGroup 1 (RChar CDigit); RPlus CSpace; RChar (CLit ".")].

(** [\.\s+(\d)] *)
Definition point_space_digit : regex :=
  rseq [RChar (CLit "."); RPlus CSpace; RGroup 1 (RChar CDigit)].

(** [(\d)\s+(\d)] *)
Definition digit_space_digit : regex :=
  rseq [RGroup 1 (RChar CDigit); RPlus CSpace; RGroup 2 (RChar CDigit)].

(** [O[''`/]?N\b] *)
Definition overnight : regex :=
  rseq [RChar (CLit "O");
        ROpt (RChar (CIn [IChar "'"; IChar "'"; IChar "`"; IChar "/"]));
        RChar (CLit "N"); RWordB].

(** [(Confirming|Changing)\s+zone\)] *)
Definition lowercase_zone : regex :=
  rseq [RGroup 1 (RAlt (rlit "Confirming") (rlit "Changing")); RPlus CSpace;
        rlit "zone)"].

End Patterns.
Import Patterns.

(** Remove leading noise characters (line 93). *)
Definition strip_leading_noise (line : str) : str :=
  re_sub leading_noise [] line.

(** Fix bracket variants to parentheses (lines 96-97). *)
Definition fix_brackets (line : str) : str :=
  let line := replace (lit "{") (lit "(") (replace (lit "[") (lit "(") line) in
  let line := replace (lit "}") (lit ")") (replace (lit "]") (lit ")") line) in
  line.

(** Fix common OCR character confusions in numbers (lines 100-101). *)
Definition fix_digit_confusions (line : str) : str :=
  let line := re_sub digit_UU [TGroup 1; TLit (lit "00")] line in
  let line := re_sub digit_0C [TGroup 1; TLit (lit "00")] line in
  line.

(** Remove double opening parens (line 104). *)
Definition collapse_open_parens (line : str) : str :=
  replace (lit "((") (lit "(") line.

(** Fix garbled Range variants (lines 107-110). *)
Definition fix_range_words (line : str) : str :=
  let line := re_sub (word "Ranne") [TLit (lit "Range")] line in
  let line := re_sub (word "Ranae") [TLit (lit "Range")] line in
  let line := re_sub (word "Kange") [TLit (lit "Range")] line in
  let line := re_sub (word "Ranaea") [TLit (lit "Range")] line in
  line.

(** The extra s (line 111). *)
Definition fix_extra_s (line : str) : str :=
  re_sub ranges_E [TLit (lit "Range E")] line.

Definition fix_range (line : str) : str := fix_extra_s (fix_range_words line).

(** Fix garbled Exhaustion variants (lines 114-119): the [for] loop. *)
Definition fix_exhaustion (line : str) : str :=
  fold_left
    (fun line pattern => re_sub (word_i pattern) [TLit (lit "Exhaustion")] line)
    exhaustion_variants line.

(** Fix garbled High at the end of range lines (lines 122-125). *)
Definition fix_high (line : str) : str :=
  let line := re_sub (word "Hinh") [TLit (lit "High")] line in
  let line := re_sub (word "Hiah") [TLit (lit "High")] line in
  let line := re_sub (word "nigh") [TLit (lit "High")] line in
  let line := re_sub (word "Mign") [TLit (lit "High")] line in
  line.

(** Fix common OCR word misreads for zone types (lines 128-133). *)
Definition fix_zone_types (line : str) : str :=
  let line := replace (lit "Contirming") (lit "Confirming") line in
  let line := replace (lit "contirming") (lit "Confirming") line in
  let line := replace (lit "Contimming") (lit "Confirming") line in
  let line := replace (lit "Cnanging") (lit "Changing") line in
  let line := replace (lit "Chanaina") (lit "Changing") line in
  let line := replace (lit "Channing") (lit "Changing") line in
  line.

(** Fix the variants of a closing Zone (lines 136-145). *)
Definition fix_zone_ending (line : str) : str :=
  let t := [TLit (lit "("); TGroup 1; TLit (lit " Zone)")] in
  let line := re_sub zone_ending t line in
  let line := re_sub zcne_ending t line in
  line.

(** Ensure a closing paren on lines ending with Zone, Weakness or Strength
    (line 148). *)
Definition close_paren (line : str) : str :=
  re_sub unclosed_paren [TLit (lit "("); TGroup 1; TLit (lit ")")] line.

(** Remove double closing parens (line 151). *)
Definition collapse_close_parens (line : str) : str :=
  re_sub close_parens [TLit (lit ")")] line.

(** Strip trailing noise after closing paren (lines 154-156). *)
Definition strip_trailing_noise (line : str) : str :=
  match re_match upto_close_paren line with
  | Some (_, g) =>
      if contains (lit "(") (group 1 g) then group 1 g else line
  | None => line
  end.

(** Remove extra spaces in numbers (lines 159-162). *)
Definition fix_space_before_point (line : str) : str :=
  re_sub digit_space_point [TGroup 1; TLit (lit ".")] line.

Definition fix_space_after_point (line : str) : str :=
  re_sub point_space_digit [TLit (lit "."); TGroup 1] line.

Definition fix_digit_spaces (line : str) : str :=
  re_sub digit_space_digit [TGroup 1; TGroup 2] line.

Definition fix_number_spaces (line : str) : str :=
  fix_digit_spaces (fix_space_after_point (fix_space_before_point line)).

(** Fix O'N to O/N (line 165). *)
Definition fix_overnight (line : str) : str :=
  re_sub overnight [TLit (lit "O/N")] line.

(** Fix a lowercase zone after the keywords (line 168). *)
Definition fix_lowercase_zone (line : str) : str :=
  re_sub lowercase_zone [TGroup 1; TLit (lit " Zone)")] line.

(** The misspelling tables (lines 106-133). *)
Definition fix_misspellings (line : str) : str :=
  fix_zone_types (fix_high (fix_exhaustion (fix_range line))).

Definition _clean_line (line : str) : str :=
  let line := strip_leading_noise line in
  let line := fix_brackets line in
  let line := fix_digit_confusions line in
  let line := collapse_open_parens line in
  let line := fix_misspellings line in
  let line := fix_zone_ending line in
  let line := close_paren line in
  let line := collapse_close_parens line in
  let line := strip_trailing_noise line in
  let line := fix_number_spaces line in
  let line := fix_overnight line in
  let line := fix_lowercase_zone line in
  strip line.

(* ================================================================== *)
(** ** The crop window (lines 43-48) *)

Module Crop.

Local Open Scope Z_scope.

(** A binary64 constant, as [mant / 2 ^ expo] with a 53-bit [mant]. *)
Record b64 := { mant : Z; expo : Z }.

(** The literals 0.50, 0.96 and 0.01 of the source, as binary64 reads
    them: 0.5 exactly, 0.96 and 0.01 rounded to 53 bits. *)
Definition f_0_50 : b64 := {| mant := 4503599627370496; expo := 53 |}.
Definition f_0_96 : b64 := {| mant := 8646911284551352; expo := 53 |}.
Definition f_0_01 : b64 := {| mant := 5764607523034235; expo := 59 |}.

(** A non-negative integer rounded to 53 significant bits, to nearest and
    to even on a tie: what binary64 keeps of it. *)
Definition round53 (p : Z) : Z :=
  let s := Z.log2 p + 1 - 53 in
  if s <=? 0 then p
  else
    let q := p / 2 ^ s in
    let r := p mod 2 ^ s in
    let half := 2 ^ (s - 1) in
    let q' := if r <? half then q
              else if half <? r then q + 1
              else if Z.even q then q else q + 1 in
    q' * 2 ^ s.

(** [int(n * c)] for an [int] [n >= 0] and a float constant [c]: [n] is
    converted to a float, the product is rounded, [int] truncates. *)
Definition int_mul (n : Z) (c : b64) : Z :=
  round53 (round53 n * mant c) / 2 ^ expo c.

Definition x_start (w : Z) : Z := int_mul w f_0_50.
Definition x_end (w : Z) : Z := int_mul w f_0_96.
Definition y_start (h : Z) : Z := int_mul h f_0_01.
Definition y_end (h : Z) : Z := int_mul h f_0_96.

(** The slice [white_mask[y_start:y_end, x_start:x_end]]. *)
Record window := { x0 : Z; x1 : Z; y0 : Z; y1 : Z }.

Definition crop_window (h w : Z) : window :=
  {| x0 := x_start w; x1 := x_end w; y0 := y_start h; y1 := y_end h |}.

(** The boundaries are non-negative and do not exceed the dimensions. *)
Definition in_bounds (h w : Z) (c : window) : Prop :=
  0 <= x0 c /\ 0 <= x1 c /\ x0 c <= w /\ x1 c <= w /\
  0 <= y0 c /\ 0 <= y1 c /\ y0 c <= h /\ y1 c <= h.

(** The slice holds at least one pixel. *)
Definition nonempty (c : window) : Prop := x0 c < x1 c /\ y0 c < y1 c.

End Crop.

(* ================================================================== *)
(** ** [extract_zones] *)

Module Pipeline.

Inductive exn :=
| FileNotFoundError (msg : str)
| ExternalError.                 (* raised inside cv2 or pytesseract *)

Inductive result (A : Type) :=
| Return (a : A)
| Raise (e : exn).
Arguments Return {A} a.
Arguments Raise {A} e.

(** What the program takes from OpenCV and Tesseract. *)
Record backend := {
  image : Type;
  (** [cv2.imread]: [None] when the file cannot be loaded *)
  imread : str -> option image;
  (** [img.shape[:2]], height then width *)
  shape : image -> Z * Z;
  (** lines 25-68 around the crop: the white mask of the image, cropped
      to the window, scaled, padded and inverted, then
      [pytesseract.image_to_string]; [None] when a library call raises *)
  ocr_text : image -> Crop.window -> option str
}.

(** The keyword list of lines 81-84. *)
Definition keywords : list str :=
  map lit ["zone"; "range"; "support"; "resistance"; "hvn"; "gap";
           "initial"; "aggressive"; "pre-market"]%string.

Definition is_empty (s : str) : bool :=
  match s with [] => true | _ => false end.

(** [any(kw in lower for kw in [...])] *)
Definition has_keyword (lower : str) : bool :=
  existsb (fun kw => contains kw lower) keywords.

(** One turn of the [for] loop of lines 72-85 on the list [lines]. *)
Definition loop_body (lines : list str) (line : str) : list str :=
  let line := strip line in
  if is_empty line then lines
  else
    let cleaned := _clean_line line in
    if is_empty cleaned then lines
    else
      let lower := lower cleaned in
      if has_keyword lower then lines ++ [cleaned] else lines.

(** Lines 70-87. *)
Definition process_text (text : str) : list str :=
  fold_left loop_body (splitlines text) [].

Definition extract_zones (b : backend) (image_path : str)
  : result (list str) :=
  match imread b image_path with
  | None =>
      Raise (FileNotFoundError (lit "Could not load image: " ++ image_path))
  | Some img =>
      let '(h, w) := shape b img in
      match ocr_text b img (Crop.crop_window h w) with
      | None => Raise ExternalError
      | Some text => Return (process_text text)
      end
  end.

End Pipeline.
Import Pipeline.


(* ================================================================== *)
(** ** What the specification says, and a backend to run the program on *)

(** What the specification asks of a returned label. *)
Definition label_ok (L : str) : Prop :=
  L <> [] /\
  exists kw a b, In kw keywords /\ lower L = a ++ kw ++ b.

(** The lines of an OCR text that survive, said with [map] and [filter]:
    trim each line and drop the empty ones, normalize and drop the empty
    results, keep the lines with a keyword. *)
Definition nonempty_line (s : str) : bool := negb (is_empty s).

Definition keep (raw : list str) : list str :=
  filter (fun l => has_keyword (lower l))
    (filter nonempty_line
       (map _clean_line (filter nonempty_line (map strip raw)))).

Definition survivors (text : str) : list str := keep (splitlines text).

(** Trailing-noise truncation as the specification words it: the line is
    cut after the first closing parenthesis that follows an opening one,
    and left alone when there is none. *)
Fixpoint through_first_close (s : str) : option str :=
  match s with
  | [] => None
  | c :: s' =>
      if Ascii.eqb c ")" then Some [c]
      else option_map (cons c) (through_first_close s')
  end.

Fixpoint cut_after_first_close (s : str) : str :=
  match s with
  | [] => []
  | c :: s' =>
      if Ascii.eqb c "(" then
        match through_first_close s' with
        | Some t => c :: t
        | None => s
        end
      else c :: cut_after_first_close s'
  end.

(** The misspelling tables of the specification: the garbled renderings
    of Range and of High, matched as words in this very case, and those of
    Confirming and Changing with their corrections.  The renderings of
    Exhaustion are [exhaustion_variants]. *)
Definition range_variants : list string :=
  ["Ranne"; "Ranae"; "Kange"; "Ranaea"]%string.

Definition high_variants : list string :=
  ["Hinh"; "Hiah"; "nigh"; "Mign"]%string.

Definition zone_type_variants : list (string * string) :=
  [("Contirming", "Confirming"); ("contirming", "Confirming");
   ("Contimming", "Confirming"); ("Cnanging", "Changing");
   ("Chanaina", "Changing"); ("Channing", "Changing")]%string.

(** The character before the position reached after reading [a]. *)
Fixpoint prev_after (a : str) (prev : option ascii) : option ascii :=
  match a with
  | [] => prev
  | c :: a' => prev_after a' (Some c)
  end.

(** [w] stands as a whole word between [pre] and [post]: it is made of
    word characters, [pre] does not end with one and [post] does not start
    with one. *)
Definition ends_in_word (s : str) : bool := word_before (prev_after s None).

Definition whole_word (pre w post : str) : Prop :=
  ends_in_word pre = false /\
  forallb is_word w = true /\
  word_after post = false.

(** ** Bounded patterns and tables of them, for the proofs *)

















(** Labels of the end-to-end scenario of the specification. *)
Definition scenario_labels : list str :=
  [lit "Resistance Zone 26268.00-26360.50 (Short-term Bias Confirming Zone)";
   lit "24H Range Extreme High";
   lit "Resistance Zone 26174.00-26237.00 (Intraday Bias Confirming Zone)";
   lit "24H Range Exhaustion High"].

(** A backend to run the program on: a chart that loads, and its text. *)
Definition demo_text : str :=
  lit "| Resistance Zone 25950.00-26012 .50 [Intraday Bias Contirming Zona"
  ++ [LF] ++ lit "24H Ranne Extreme Hinh"
  ++ [LF] ++ lit "2026-02-10 08:53"
  ++ [LF]
  ++ [LF] ++ lit "24H Ranne Extreme Hinh"
  ++ [CR; LF] ++ lit "  Support Zone 24806.00-24850.25 (Short-term Bias Changing zone) ~~".

Definition demo_backend : backend :=
  {| image := unit;
     imread := fun p => if starts_with (lit "chart") p then Some tt else None;
     shape := fun _ => (1080%Z, 1920%Z);
     ocr_text := fun _ _ => Some demo_text |}.

Definition demo_labels : list str :=
  [lit "Resistance Zone 25950.00-26012.50 (Intraday Bias Confirming Zone)";
   lit "24H Range Extreme High";
   lit "24H Range Extreme High";
   lit "Support Zone 24806.00-24850.25 (Short-term Bias Changing Zone)"].

(* ================================================================== *)
(** ** More of the program: [main], and what the other rules compute *)

(** The lines of a text, put together with the line ending [sep]. *)
Fixpoint join (sep : str) (lines : list str) : str :=
  match lines with
  | [] => []
  | l :: ls =>
      match ls with
      | [] => l
      | _ :: _ => l ++ sep ++ join sep ls
      end
  end.

(** How a run of the script ends. *)
Inductive ending :=
| Finished                       (* [main] returns *)
| Exit (status : Z)              (* [sys.exit] *)
| Uncaught (e : exn).            (* an exception leaves [main] *)

(** What [print] has written to standard output, and how the run ends. *)
Record run_result := { stdout : str; ending_of : ending }.

Definition usage : str := lit "Usage: python extract_zones.py <image_path>".

(** [print(line)] for each line. *)
Definition print_all (lines : list str) : str :=
  flat_map (fun line => line ++ [LF]) lines.

Definition main (b : backend) (argv : list str) : run_result :=
  if length argv <? 2 then
    {| stdout := usage ++ [LF]; ending_of := Exit 1 |}
  else
    let image_path := nth 1 argv [] in
    match extract_zones b image_path with
    | Return lines => {| stdout := print_all lines; ending_of := Finished |}
    | Raise e => {| stdout := []; ending_of := Uncaught e |}
    end.

(** The length of the longest prefix of [s] accepted by [cs]. *)
Fixpoint span (cs : cset) (s : str) : nat :=
  match s with
  | c :: s' => if cmatch cs c then S (span cs s') else 0
  | [] => 0
  end.

(** The characters that line 93 strips. *)
Definition noise_char (c : ascii) : bool :=
  existsb (Ascii.eqb c) ["|"; "!"; DQUOTE; "'"; ","; "."; ";"; ":"]%char
  || is_space c.

Definition noise_set : cset :=
  CIn [IChar "|"; IChar "!"; IChar DQUOTE; IChar "'"; ISpace;
       IChar ","; IChar "."; IChar ";"; IChar ":"].

Fixpoint drop_noise (s : str) : str :=
  match s with
  | c :: s' => if noise_char c then drop_noise s' else s
  | [] => []
  end.

(** What lines 96-97 make of a character. *)
Definition to_paren (c : ascii) : ascii :=
  if Ascii.eqb c "[" || Ascii.eqb c "{" then "("%char
  else if Ascii.eqb c "]" || Ascii.eqb c "}" then ")"%char
  else c.

(** Drop every closing parenthesis that is followed by another one. *)
Fixpoint squeeze (s : str) : str :=
  match s with
  | [] => []
  | c :: s' =>
      if Ascii.eqb c ")" && starts_with [")"%char] s' then squeeze s'
      else c :: squeeze s'
  end.

Definition close_run (s : str) : nat := span (CLit ")") s.

Definition opens (n : nat) : str := repeat "("%char n.

(** What reaches [_clean_line]: the trimmed, non-empty lines. *)
Definition normalizer_inputs (text : str) : list str :=
  filter nonempty_line (map strip (splitlines text)).

(** [(?:Zone|Weakness|Strength)] *)
Definition closing_word : regex :=
  ralt [rlit "Zone"; rlit "Weakness"; rlit "Strength"].

(** The words after which line 148 closes a parenthesis. *)
Definition closing_words : list string :=
  ["Zone"; "Weakness"; "Strength"]%string.

(** Not the first letter of one of these words. *)
Definition not_initial (c : ascii) : bool :=
  negb (Ascii.eqb "Z" c || Ascii.eqb "W" c || Ascii.eqb "S" c).

Definition head_is (f : ascii -> bool) (s : str) : bool :=
  match s with c :: _ => f c | [] => false end.

(** No character accepted by [f] stands right before whitespace. *)
Fixpoint no_gap_after (f : ascii -> bool) (s : str) : bool :=
  match s with
  | c :: s' => negb (f c && head_is is_space s') && no_gap_after f s'
  | [] => true
  end.

(* ================================================================== *)
(** * Properties *)

Arguments is_space : simpl never.
Arguments is_digit : simpl never.
Arguments is_word : simpl never.
Arguments lower_char : simpl never.
Arguments is_linebreak : simpl never.

(** ** Strings *)

Section StrFacts.

Lemma starts_with_spec (p s : str) :
  starts_with p s = true <-> exists t, s = p ++ t.
Proof.
  revert s; induction p as [|a p IH]; intros s; simpl.
  - split; [intros _; now exists s | reflexivity].
  - destruct s as [|b s]; simpl.
    + split; [discriminate | intros [t Ht]; discriminate].
    + rewrite andb_true_iff, Ascii.eqb_eq, IH. split.
      * intros [-> [t ->]]. now exists t.
      * intros [t Ht]. injection Ht as -> ->. split; [reflexivity | now exists t].
Qed.

Lemma contains_spec (p s : str) :
  contains p s = true <-> exists a b, s = a ++ p ++ b.
Proof.
  induction s as [|c s IH].
  - simpl. rewrite orb_false_r, starts_with_spec. split.
    + intros [t Ht]. now exists [], t.
    + intros [a [b Hab]]. destruct a; simpl in Hab.
      * now exists b.
      * discriminate.
  - cbn [contains]. rewrite orb_true_iff, starts_with_spec, IH. split.
    + intros [[t Ht] | [a [b Hab]]].
      * now exists [], t.
      * exists (c :: a), b. now rewrite Hab.
    + intros [a [b Hab]]. destruct a as [|d a]; simpl in Hab.
      * left. now exists b.
      * right. injection Hab as _ ->. now exists a, b.
Qed.

Lemma is_empty_false (s : str) : is_empty s = false <-> s <> [].
Proof. destruct s; simpl; split; congruence. Qed.

End StrFacts.

(** ** Characters *)

Section CharFacts.

Lemma digit_not_space (c : ascii) : is_digit c = true -> is_space c = false.
Proof.
  destruct c as [[|] [|] [|] [|] [|] [|] [|] [|]]; vm_compute; congruence.
Qed.

Lemma digit_is_word (c : ascii) : is_digit c = true -> is_word c = true.
Proof.
  destruct c as [[|] [|] [|] [|] [|] [|] [|] [|]]; vm_compute; congruence.
Qed.

Lemma space_not_word (c : ascii) : is_space c = true -> is_word c = false.
Proof.
  destruct c as [[|] [|] [|] [|] [|] [|] [|] [|]]; vm_compute; congruence.
Qed.

Lemma space_is_space : is_space " " = true.
Proof. reflexivity. Qed.

Lemma space_not_digit : is_digit " " = false.
Proof. reflexivity. Qed.

End CharFacts.

(** ** One step of [re.sub] *)

Section SubFacts.

Variables (r : regex) (t : list titem).

Lemma sub_from_skip prev c s j :
  sub_from r t prev (c :: s) (S j) = sub_from r t (Some c) s j.
Proof. reflexivity. Qed.

Lemma sub_from_hit prev c s j g :
  match_at r false prev (c :: s) = Some (S j, g) ->
  sub_from r t prev (c :: s) 0 = expand t g ++ sub_from r t (Some c) s j.
Proof. intros H. cbn [sub_from]. now rewrite H. Qed.

Lemma sub_from_miss prev c s :
  match_at r false prev (c :: s) = None ->
  sub_from r t prev (c :: s) 0 = c :: sub_from r t (Some c) s 0.
Proof. intros H. cbn [sub_from]. now rewrite H. Qed.

Lemma sub_from_end prev j :
  match_at r false prev [] = None -> sub_from r t prev [] j = [].
Proof. intros H. cbn [sub_from]. now rewrite H. Qed.

End SubFacts.

(** Unfold one match attempt of a pattern of the program on a string whose
    first characters are known. *)
Ltac re_eval :=
  cbv beta delta
      [leading_noise digit_UU digit_0C word word_i ranges_E bias_word
       zone_ending zcne_ending unclosed_paren close_parens upto_close_paren
       digit_space_point point_space_digit digit_space_digit overnight
       lowercase_zone];
  cbv beta delta [bounded rlit rlit_i chars literally literally_i];
  cbn [match_at run star rseq ralt fold_right map
       list_ascii_of_string cmatch imatch existsb andb orb negb xorb
       word_before word_after Nat.eqb Nat.sub firstn].

Ltac closed_char c :=
  lazymatch c with Ascii _ _ _ _ _ _ _ _ => idtac end.

(** Evaluate the tests on characters that are known. *)
Ltac ev_chars :=
  repeat match goal with
         | |- context [Ascii.eqb ?a ?b] =>
             closed_char a; closed_char b;
             let v := eval vm_compute in (Ascii.eqb a b) in
             change (Ascii.eqb a b) with v
         | |- context [is_word ?a] =>
             closed_char a;
             let v := eval vm_compute in (is_word a) in
             change (is_word a) with v
         | |- context [is_space ?a] =>
             closed_char a;
             let v := eval vm_compute in (is_space a) in
             change (is_space a) with v
         | |- context [is_digit ?a] =>
             closed_char a;
             let v := eval vm_compute in (is_digit a) in
             change (is_digit a) with v
         end;
  cbn [andb orb negb xorb].

Ltac split_ifs :=
  repeat match goal with
         | |- context [if ?b then _ else _] => destruct b eqn:?
         end.

Section RunFacts.

Lemma run_seq r1 r2 n prev s g k :
  run (RSeq r1 r2) n prev s g k
  = run r1 n prev s g (fun n' p' s' g' => run r2 n' p' s' g' k).
Proof. reflexivity. Qed.

Lemma run_group i r n prev s g k :
  run (RGroup i r) n prev s g k
  = run r n prev s g
        (fun n' p' s' g' => k n' p' s' ((i, firstn (n' - n) s) :: g')).
Proof. reflexivity. Qed.

Lemma run_star cs n prev s g k :
  run (RStar cs) n prev s g k = star cs k n prev s g.
Proof. reflexivity. Qed.

End RunFacts.

(** ** The loop of [extract_zones] *)

Section Loop.

Lemma has_keyword_spec (s : str) :
  has_keyword s = true <-> exists kw a b, In kw keywords /\ s = a ++ kw ++ b.
Proof.
  unfold has_keyword. rewrite existsb_exists. split.
  - intros [kw [Hin Hc]]. apply contains_spec in Hc as [a [b Hab]].
    now exists kw, a, b.
  - intros [kw [a [b [Hin Hab]]]]. exists kw. split; [exact Hin|].
    apply contains_spec. now exists a, b.
Qed.

Lemma loop_body_labels (lines : list str) (line : str) :
  Forall label_ok lines -> Forall label_ok (loop_body lines line).
Proof.
  intros H. unfold loop_body.
  destruct (is_empty (strip line)); [exact H|].
  destruct (is_empty (_clean_line (strip line))) eqn:He; [exact H|].
  destruct (has_keyword (lower (_clean_line (strip line)))) eqn:Hk; [|exact H].
  apply Forall_app. split; [exact H|].
  constructor; [|constructor]. split.
  - now apply is_empty_false.
  - now apply has_keyword_spec.
Qed.

Lemma fold_loop_labels (ls : list str) (acc : list str) :
  Forall label_ok acc -> Forall label_ok (fold_left loop_body ls acc).
Proof.
  revert acc; induction ls as [|l ls IH]; intros acc H; simpl.
  - exact H.
  - apply IH, loop_body_labels, H.
Qed.

Lemma process_text_labels (text : str) : Forall label_ok (process_text text).
Proof. apply fold_loop_labels. constructor. Qed.

Lemma keep_cons (l : str) (ls : list str) :
  keep (l :: ls) = loop_body [] l ++ keep ls.
Proof.
  unfold keep, loop_body, nonempty_line. cbn [map filter].
  destruct (is_empty (strip l)); cbn [negb app]; [reflexivity|].
  cbn [map filter].
  destruct (is_empty (_clean_line (strip l))); cbn [negb app]; [reflexivity|].
  cbn [filter].
  now destruct (has_keyword (lower (_clean_line (strip l)))).
Qed.

Lemma loop_body_app (acc : list str) (l : str) :
  loop_body acc l = acc ++ loop_body [] l.
Proof.
  unfold loop_body.
  destruct (is_empty (strip l)); [now rewrite app_nil_r|].
  destruct (is_empty (_clean_line (strip l))); [now rewrite app_nil_r|].
  destruct (has_keyword (lower (_clean_line (strip l))));
    [reflexivity | now rewrite app_nil_r].
Qed.

Lemma fold_loop_keep (ls : list str) (acc : list str) :
  fold_left loop_body ls acc = acc ++ keep ls.
Proof.
  revert acc; induction ls as [|l ls IH]; intros acc.
  - simpl. now rewrite app_nil_r.
  - cbn [fold_left]. rewrite IH, keep_cons, (loop_body_app acc).
    now rewrite app_assoc.
Qed.

Lemma process_text_survivors (text : str) : process_text text = survivors text.
Proof. unfold process_text, survivors. now rewrite fold_loop_keep. Qed.

End Loop.

Lemma demo_run : extract_zones demo_backend (lit "chart.png") = Return demo_labels.
Proof. vm_compute. reflexivity. Qed.

(** ** Claims on the pipeline *)

(** C1.  Whatever the image and whatever text the OCR engine gives, every
    label that [extract_zones] returns is a non-empty string whose
    lowercase form contains one of the nine keywords as a substring. *)
Theorem extract_zones_labels_ok (b : backend) (image_path : str)
        (labels : list str) :
  extract_zones b image_path = Return labels ->
  Forall label_ok labels.
Proof.
  unfold extract_zones. intros H.
  destruct (imread b image_path) as [img|]; [|discriminate].
  destruct (shape b img) as [h w].
  destruct (ocr_text b img (Crop.crop_window h w)) as [text|]; [|discriminate].
  injection H as <-. apply process_text_labels.
Qed.

Lemma extract_zones_labels_ok_witness :
  extract_zones demo_backend (lit "chart.png") = Return demo_labels /\
  Forall label_ok demo_labels.
Proof.
  split.
  - vm_compute. reflexivity.
  - apply (extract_zones_labels_ok demo_backend (lit "chart.png")).
    vm_compute. reflexivity.
Defined.

(** C5.  When the image cannot be loaded, [extract_zones] raises
    [FileNotFoundError] with the path in its message, whatever the rest of
    the backend would do, and returns no labels; and it raises
    [FileNotFoundError] only then. *)
Theorem extract_zones_source_not_found (b : backend) (image_path : str) :
  (imread b image_path = None ->
   extract_zones b image_path
   = Raise (FileNotFoundError (lit "Could not load image: " ++ image_path)) /\
   (forall labels, extract_zones b image_path <> Return labels) /\
   (forall shape' ocr_text',
       extract_zones {| image := image b; imread := imread b;
                        shape := shape'; ocr_text := ocr_text' |} image_path
       = extract_zones b image_path)) /\
  ((exists msg, extract_zones b image_path = Raise (FileNotFoundError msg))
   -> imread b image_path = None).
Proof.
  split.
  - intros H. unfold extract_zones. cbn [imread]. rewrite H.
    split; [reflexivity|]. split; [intros labels; discriminate | reflexivity].
  - intros [msg H]. unfold extract_zones in H.
    destruct (imread b image_path) as [img|]; [|reflexivity].
    destruct (shape b img) as [h w].
    destruct (ocr_text b img (Crop.crop_window h w)); discriminate.
Qed.

Lemma extract_zones_source_not_found_witness :
  imread demo_backend (lit "missing.png") = None /\
  extract_zones demo_backend (lit "missing.png")
  = Raise (FileNotFoundError (lit "Could not load image: missing.png")).
Proof.
  split.
  - reflexivity.
  - exact (proj1 (proj1 (extract_zones_source_not_found demo_backend
                           (lit "missing.png")) eq_refl)).
Defined.

(** C6.  The labels returned are the OCR lines that survive trimming,
    normalization and the keyword filter, in the order of the OCR text and
    as often as they occur there: nothing is reordered, nothing is
    deduplicated. *)
Theorem extract_zones_order (b : backend) (image_path : str) (img : image b)
        (text : str) :
  imread b image_path = Some img ->
  ocr_text b img (Crop.crop_window (fst (shape b img)) (snd (shape b img)))
  = Some text ->
  extract_zones b image_path = Return (survivors text).
Proof.
  intros Him Hocr. unfold extract_zones. rewrite Him.
  destruct (shape b img) as [h w]. cbn [fst snd] in Hocr. rewrite Hocr.
  now rewrite process_text_survivors.
Qed.

Lemma extract_zones_order_witness :
  extract_zones demo_backend (lit "chart.png") = Return (survivors demo_text)
  /\ survivors demo_text = demo_labels.
Proof.
  split.
  - exact (extract_zones_order demo_backend (lit "chart.png") tt demo_text
             eq_refl eq_refl).
  - vm_compute. reflexivity.
Defined.

(** ** Claims on the numeric rules *)

(** C7.  The numeric-spacing repair takes [25092 .25] and [25092. 25] to
    [25092.25] and [2 5092] to [25092], as a rule on its own and inside
    [_clean_line]. *)
Theorem numeric_spacing_examples :
  fix_space_before_point (lit "25092 .25") = lit "25092.25" /\
  fix_space_after_point (lit "25092. 25") = lit "25092.25" /\
  fix_digit_spaces (lit "2 5092") = lit "25092" /\
  fix_number_spaces (lit "25092 .25") = lit "25092.25" /\
  fix_number_spaces (lit "25092. 25") = lit "25092.25" /\
  fix_number_spaces (lit "2 5092") = lit "25092" /\
  _clean_line (lit "25092 .25") = lit "25092.25" /\
  _clean_line (lit "25092. 25") = lit "25092.25" /\
  _clean_line (lit "2 5092") = lit "25092".
Proof. repeat split; vm_compute; reflexivity. Qed.

(** C10.  The digit-space collapse is one left-to-right pass over matches
    that do not overlap: in three digits separated by single spaces only
    the first pair is merged, and the second pair is merged by a second
    application only. *)
Theorem digit_space_single_pass (a b c : ascii) :
  is_digit a = true -> is_digit b = true -> is_digit c = true ->
  fix_digit_spaces [a; " "%char; b; " "%char; c] = [a; b; " "%char; c] /\
  fix_digit_spaces [a; " "%char; b; " "%char; c] <> [a; b; c] /\
  fix_digit_spaces [a; b; " "%char; c] = [a; b; c].
Proof.
  intros Ha Hb Hc.
  assert (H1 : fix_digit_spaces [a; " "%char; b; " "%char; c]
               = [a; b; " "%char; c]).
  { unfold fix_digit_spaces, re_sub.
    rewrite (sub_from_hit _ _ _ _ _ 2 [(2, [b]); (1, [a])]).
    2:{ re_eval. now rewrite Ha, Hb, space_is_space, (digit_not_space b Hb). }
    rewrite !sub_from_skip, sub_from_miss.
    2:{ re_eval. now rewrite space_not_digit. }
    rewrite sub_from_miss.
    2:{ re_eval. now rewrite Hc. }
    rewrite sub_from_end; [reflexivity | re_eval; reflexivity]. }
  split; [exact H1|]. split; [rewrite H1; discriminate|].
  unfold fix_digit_spaces, re_sub.
  rewrite sub_from_miss.
  2:{ re_eval. now rewrite Ha, (digit_not_space b Hb). }
  rewrite (sub_from_hit _ _ _ _ _ 2 [(2, [c]); (1, [b])]).
  2:{ re_eval. now rewrite Hb, Hc, space_is_space, (digit_not_space c Hc). }
  rewrite !sub_from_skip.
  rewrite sub_from_end; [reflexivity | re_eval; reflexivity].
Qed.

Lemma digit_space_single_pass_witness :
  fix_digit_spaces (lit "1 2 3") = lit "12 3" /\
  fix_digit_spaces (lit "1 2 3") <> lit "123" /\
  fix_digit_spaces (lit "12 3") = lit "123".
Proof.
  apply (digit_space_single_pass "1" "2" "3"); reflexivity.
Defined.

(** ** Trailing-noise truncation (lines 153-156) *)

Section Truncation.

Variable k : cont.

Let K : cont := fun n p s g => run (RChar (CLit ")")) n p s g k.

(** Past the last closing parenthesis, [.*] finds no place to stop. *)
Lemma star_any_no_close post : forall n prev g,
  ~ In ")"%char post -> star CAny K n prev post g = None.
Proof.
  induction post as [|c post IH]; intros n prev g Hin.
  - reflexivity.
  - assert (Hc : Ascii.eqb ")" c = false).
    { apply Ascii.eqb_neq. intros E. apply Hin. now left. }
    cbn [star]. rewrite IH by (intros H; apply Hin; now right).
    unfold K. cbn [run cmatch]. rewrite Hc. now destruct (negb _).
Qed.

(** [.*] is greedy: it gives back characters down to the last closing
    parenthesis, and no further when the rest of the pattern accepts. *)
Lemma star_any_last_close pre : forall post n prev g res,
  ~ In LF pre -> ~ In ")"%char post ->
  k (S (n + length pre)) (Some ")"%char) post g = Some res ->
  star CAny K n prev (pre ++ ")"%char :: post) g = Some res.
Proof.
  induction pre as [|c pre IH]; intros post n prev g res Hlf Hcl Hk.
  - cbn [app star]. change (cmatch CAny ")") with true. cbv iota.
    rewrite star_any_no_close by exact Hcl.
    unfold K. cbn [run cmatch]. rewrite Ascii.eqb_refl.
    cbn [length] in Hk. now rewrite Nat.add_0_r in Hk.
  - cbn [app star].
    assert (Hc : cmatch CAny c = true).
    { cbn [cmatch]. apply negb_true_iff, Ascii.eqb_neq.
      intros E. apply Hlf. now left. }
    rewrite Hc.
    rewrite (IH post (S n) (Some c) g res); [reflexivity | | exact Hcl |].
    + intros H. apply Hlf. now right.
    + cbn [length] in Hk. now rewrite Nat.add_succ_r in Hk.
Qed.

End Truncation.

Lemma contains_char_In (c : ascii) (s : str) :
  contains [c] s = true <-> In c s.
Proof.
  rewrite contains_spec. split.
  - intros [a [b ->]]. apply in_or_app. right. now left.
  - intros H. apply in_split in H as [a [b ->]]. now exists a, b.
Qed.

(** C3, as the code has it.  On a line without a line feed, written as
    [pre ++ ")" ++ post] with no closing parenthesis in [post]: when an
    opening parenthesis occurs in [pre], the truncation keeps the line up
    to this last closing parenthesis and drops [post]; when none occurs,
    the line is left as it is. *)
Theorem strip_trailing_noise_last_close (pre post : str) :
  ~ In LF pre -> ~ In ")"%char post ->
  (In "("%char pre ->
   strip_trailing_noise (pre ++ ")"%char :: post) = pre ++ [")"%char]) /\
  (~ In "("%char pre ->
   strip_trailing_noise (pre ++ ")"%char :: post) = pre ++ ")"%char :: post).
Proof.
  intros Hlf Hcl.
  assert (Hm : re_match upto_close_paren (pre ++ ")"%char :: post)
               = Some (S (length pre), [(1, pre ++ [")"%char])])).
  { unfold re_match, match_at, upto_close_paren.
    rewrite run_group, run_seq, run_star.
    rewrite (star_any_last_close _ pre post 0 None []
               (S (length pre), [(1, pre ++ [")"%char])])); auto.
    cbn [andb Nat.add]. rewrite Nat.sub_0_r. do 3 f_equal.
    replace (S (length pre)) with (length pre + 1) by lia.
    now rewrite firstn_app_2. }
  unfold strip_trailing_noise. rewrite Hm. cbn [group Nat.eqb].
  split; intros Hop.
  - assert (H : contains (lit "(") (pre ++ [")"%char]) = true).
    { apply (contains_char_In "("). apply in_or_app. now left. }
    now rewrite H.
  - assert (H : contains (lit "(") (pre ++ [")"%char]) = false).
    { apply not_true_is_false. intros H. apply (contains_char_In "(") in H.
      apply in_app_or in H as [H|[H|[]]]; [now apply Hop | discriminate]. }
    now rewrite H.
Qed.

Lemma strip_trailing_noise_last_close_witness :
  strip_trailing_noise (lit "(a) b) c") = lit "(a) b)" /\
  strip_trailing_noise (lit "a) b") = lit "a) b".
Proof.
  split.
  - apply (strip_trailing_noise_last_close (lit "(a) b") (lit " c")).
    + vm_compute. intuition discriminate.
    + vm_compute. intuition discriminate.
    + vm_compute. tauto.
  - apply (strip_trailing_noise_last_close (lit "a") (lit " b")).
    + vm_compute. intuition discriminate.
    + vm_compute. intuition discriminate.
    + vm_compute. intuition discriminate.
Defined.

(** C3, as the specification words it, fails: on [(a) b) c] the first
    closing parenthesis after an opening one ends [(a)], and the code
    keeps [(a) b)]. *)
Lemma strip_trailing_noise_not_first_close :
  cut_after_first_close (lit "(a) b) c") = lit "(a)" /\
  strip_trailing_noise (lit "(a) b) c") = lit "(a) b)" /\
  _clean_line (lit "(a) b) c") = lit "(a) b)" /\
  strip_trailing_noise (lit "(a) b) c")
  <> cut_after_first_close (lit "(a) b) c").
Proof. repeat split; vm_compute; (reflexivity || discriminate). Qed.

(** ** The overnight marker (lines 164-165) *)

Section Overnight.

(** A match that starts before an O cannot reach past it. *)
Lemma overnight_inside (pre x y : str) (prev : option ascii) (adv : bool) :
  pre <> [] ->
  match_at overnight adv prev (pre ++ "O"%char :: x)
  = match_at overnight adv prev (pre ++ "O"%char :: y) /\
  (forall j g,
      match_at overnight adv prev (pre ++ "O"%char :: x) = Some (j, g) ->
      1 <= j <= length pre /\ g = []).
Proof.
  intros Hne.
  destruct pre as [|c [|d [|e [|f pre]]]]; [congruence| | | |];
    cbn [app]; re_eval; ev_chars.
  all: split;
    [ split_ifs; reflexivity
    | intros j g; split_ifs; intros H;
      first [ discriminate
            | injection H as <- <-; cbn [length]; split; [lia | reflexivity] ] ].
Qed.

Lemma overnight_lone_O (prev : option ascii) :
  match_at overnight false prev ["O"%char] = None.
Proof. reflexivity. Qed.

Lemma overnight_at_ON (prev : option ascii) (post : str) :
  word_after post = false ->
  match_at overnight false prev ("O"%char :: "N"%char :: post) = Some (2, []).
Proof. intros H. re_eval. ev_chars. now rewrite H. Qed.

Let t : list titem := [TLit (lit "O/N")].

Lemma overnight_insert (post : str) :
  word_after post = false ->
  forall pre prev skip,
    skip <= length pre ->
    exists pre',
      sub_from overnight t prev (pre ++ lit "O") skip = pre' ++ lit "O" /\
      sub_from overnight t prev (pre ++ lit "ON" ++ post) skip
      = pre' ++ lit "O/N" ++ sub_from overnight t None post 0.
Proof.
  intros Hpost. induction pre as [|c pre IH]; intros prev skip Hskip.
  - cbn [length] in Hskip. assert (skip = 0) as -> by lia.
    exists []. cbn [app lit list_ascii_of_string]. split.
    + rewrite sub_from_miss by apply overnight_lone_O.
      now rewrite sub_from_end.
    + rewrite (sub_from_hit _ _ _ _ _ 1 []) by now apply overnight_at_ON.
      rewrite sub_from_skip.
      cbn [expand flat_map t lit list_ascii_of_string app].
      do 3 f_equal. destruct post; reflexivity.
  - change ((c :: pre) ++ lit "O") with (c :: (pre ++ "O"%char :: [])).
    change ((c :: pre) ++ lit "ON" ++ post)
      with (c :: (pre ++ "O"%char :: "N"%char :: post)).
    destruct skip as [|j].
    + destruct (overnight_inside (c :: pre) [] ("N"%char :: post) prev false)
        as [Heq Hbound]; [discriminate|].
      cbn [app] in Heq, Hbound.
      destruct (match_at overnight false prev (c :: pre ++ ["O"%char]))
        as [[j g]|] eqn:E.
      * destruct (Hbound j g eq_refl) as [Hj ->]. cbn [length] in Hj.
        destruct j as [|j]; [lia|].
        destruct (IH (Some c) j ltac:(lia)) as [pre' [H1 H2]].
        exists (lit "O/N" ++ pre').
        rewrite (sub_from_hit _ _ _ _ _ j []) by exact E.
        rewrite (sub_from_hit _ _ _ _ _ j []) by (now rewrite <- Heq).
        change (pre ++ ["O"%char]) with (pre ++ lit "O").
        change (pre ++ "O"%char :: "N"%char :: post)
          with (pre ++ lit "ON" ++ post).
        rewrite H1, H2. cbn [expand flat_map t]. rewrite !app_nil_r.
        now rewrite <- !app_assoc.
      * destruct (IH (Some c) 0 ltac:(lia)) as [pre' [H1 H2]].
        exists (c :: pre').
        rewrite sub_from_miss by exact E.
        rewrite sub_from_miss by (now rewrite <- Heq).
        change (pre ++ ["O"%char]) with (pre ++ lit "O").
        change (pre ++ "O"%char :: "N"%char :: post)
          with (pre ++ lit "ON" ++ post).
        now rewrite H1, H2.
    + rewrite !sub_from_skip. cbn [length] in Hskip.
      destruct (IH (Some c) j ltac:(lia)) as [pre' [H1 H2]].
      exists pre'. split; assumption.
Qed.

End Overnight.

(** C9.  The rule asks for no separator.  Take any line with an uppercase
    O, and the same line with an N put right after that O and before a
    word boundary: the rule rewrites the second as it rewrites the first,
    with [/N] in place of the N, whatever stands before the O; the text
    after the boundary is rewritten on its own. *)
Theorem overnight_without_separator (pre post : str) :
  word_after post = false ->
  exists pre',
    fix_overnight (pre ++ lit "O") = pre' ++ lit "O" /\
    fix_overnight (pre ++ lit "ON" ++ post)
    = pre' ++ lit "O/N" ++ fix_overnight post.
Proof.
  intros H. apply (overnight_insert post H pre None 0). lia.
Qed.

Lemma overnight_without_separator_witness :
  fix_overnight (lit "STATION") = lit "STATIO/N".
Proof.
  destruct (overnight_without_separator (lit "STATI") [] eq_refl)
    as [pre' [H1 H2]].
  change (fix_overnight (lit "STATI" ++ lit "O")) with (lit "STATI" ++ lit "O")
    in H1.
  apply app_inv_tail in H1. subst pre'. exact H2.
Defined.

(** ** The crop window (lines 43-48) *)

Module CropFacts.
Import Crop.
Local Open Scope Z_scope.

Lemma round53_small p : 0 <= p < 2 ^ 53 -> round53 p = p.
Proof.
  intros H. unfold round53.
  assert (Z.log2 p + 1 - 53 <= 0).
  { destruct (Z.eq_dec p 0) as [->|]; [cbn; lia|].
    assert (Z.log2 p < 53) by (apply Z.log2_lt_pow2; lia). lia. }
  cbv zeta. destruct (Z.leb_spec (Z.log2 p + 1 - 53) 0); [reflexivity | lia].
Qed.

(** Rounding does not step over a multiple of [2 ^ k] when the shift is at most k *)
Lemma round53_lower p t k :
  0 <= k -> 0 <= t -> Z.log2 p + 1 - 53 <= k ->
  t * 2 ^ k <= p -> t * 2 ^ k <= round53 p.
Proof.
  intros Hk Ht Hs Hp. unfold round53. cbv zeta.
  destruct (Z.leb_spec (Z.log2 p + 1 - 53) 0) as [|Hpos]; [exact Hp|].
  set (s := Z.log2 p + 1 - 53) in *.
  assert (H2s : 0 < 2 ^ s) by (apply Z.pow_pos_nonneg; lia).
  assert (Hsplit : 2 ^ k = 2 ^ (k - s) * 2 ^ s).
  { rewrite <- Z.pow_add_r by lia. f_equal. lia. }
  assert (Hq : t * 2 ^ (k - s) <= p / 2 ^ s).
  { apply Z.div_le_lower_bound; [exact H2s|]. rewrite Hsplit in Hp. lia. }
  assert (Hq' : p / 2 ^ s <=
                (if p mod 2 ^ s <? 2 ^ (s - 1) then p / 2 ^ s
                 else if 2 ^ (s - 1) <? p mod 2 ^ s then p / 2 ^ s + 1
                      else if Z.even (p / 2 ^ s) then p / 2 ^ s
                           else p / 2 ^ s + 1)).
  { destruct (_ <? _); [lia|]. destruct (_ <? _); [lia|].
    destruct (Z.even _); lia. }
  rewrite Hsplit. nia.
Qed.

Lemma round53_upper p t k :
  0 <= k -> 0 <= p -> Z.log2 p + 1 - 53 <= k ->
  p <= t * 2 ^ k -> round53 p <= t * 2 ^ k.
Proof.
  intros Hk Hp0 Hs Hp. unfold round53. cbv zeta.
  destruct (Z.leb_spec (Z.log2 p + 1 - 53) 0) as [|Hpos]; [exact Hp|].
  set (s := Z.log2 p + 1 - 53) in *.
  assert (H2s : 0 < 2 ^ s) by (apply Z.pow_pos_nonneg; lia).
  assert (Hhalf : 0 < 2 ^ (s - 1)) by (apply Z.pow_pos_nonneg; lia).
  assert (Hsplit : 2 ^ k = 2 ^ (k - s) * 2 ^ s).
  { rewrite <- Z.pow_add_r by lia. f_equal. lia. }
  pose proof (Z.div_mod p (2 ^ s) ltac:(lia)) as Hdm.
  pose proof (Z.mod_pos_bound p (2 ^ s) H2s) as Hm.
  set (q := p / 2 ^ s) in *. set (r := p mod 2 ^ s) in *.
  set (T := t * 2 ^ (k - s)).
  assert (HT : t * 2 ^ k = T * 2 ^ s) by (unfold T; rewrite Hsplit; ring).
  rewrite HT in *.
  assert (Hcase : q + 1 <= T \/ (q = T /\ r = 0)) by nia.
  destruct (Z.ltb_spec r (2 ^ (s - 1))).
  - nia.
  - destruct Hcase as [Hc|[Hc Hr]]; [|lia].
    destruct (_ <? _); [nia|]. destruct (Z.even q); nia.
Qed.

Lemma round53_exact p :
  0 <= p -> p mod 2 ^ (Z.log2 p + 1 - 53) = 0 -> round53 p = p.
Proof.
  intros Hp Hr. unfold round53. cbv zeta.
  destruct (Z.leb_spec (Z.log2 p + 1 - 53) 0) as [|Hpos]; [reflexivity|].
  set (s := Z.log2 p + 1 - 53) in *.
  assert (H2s : 0 < 2 ^ s) by (apply Z.pow_pos_nonneg; lia).
  assert (Hhalf : 0 < 2 ^ (s - 1)) by (apply Z.pow_pos_nonneg; lia).
  rewrite Hr. destruct (Z.ltb_spec 0 (2 ^ (s - 1))); [|lia].
  pose proof (Z.div_mod p (2 ^ s) (Z.neq_sym _ _ (Z.lt_neq _ _ H2s))) as Hdm.
  rewrite Hr, Z.add_0_r in Hdm. rewrite Z.mul_comm. now symmetry.
Qed.

Lemma shift_le n m k :
  0 < n < 2 ^ 53 -> 0 < m < 2 ^ 53 -> 53 <= k ->
  Z.log2 (n * m) + 1 - 53 <= k.
Proof.
  intros Hn Hm Hk.
  assert (n * m < 2 ^ 106).
  { change (2 ^ 106) with (2 ^ 53 * 2 ^ 53). nia. }
  assert (Z.log2 (n * m) < 106) by (apply Z.log2_lt_pow2; nia).
  lia.
Qed.

Section IntMul.

Variables (n : Z) (c : b64).
Hypothesis Hn : 0 < n < 2 ^ 53.
Hypothesis Hm : 0 < mant c < 2 ^ 53.
Hypothesis Hk : 53 <= expo c.

Lemma int_mul_ge t :
  0 <= t -> t * 2 ^ expo c <= n * mant c -> t <= int_mul n c.
Proof.
  intros Ht H. unfold int_mul. rewrite (round53_small n) by lia.
  apply Z.div_le_lower_bound; [apply Z.pow_pos_nonneg; lia|].
  rewrite (Z.mul_comm (2 ^ expo c)).
  apply round53_lower; [lia | exact Ht | now apply shift_le | exact H].
Qed.

Lemma int_mul_le t :
  n * mant c <= t * 2 ^ expo c -> int_mul n c <= t.
Proof.
  intros H. unfold int_mul. rewrite (round53_small n) by lia.
  assert (H2 : 0 < 2 ^ expo c) by (apply Z.pow_pos_nonneg; lia).
  assert (Hr : round53 (n * mant c) <= t * 2 ^ expo c).
  { apply round53_upper; [lia | nia | now apply shift_le | exact H]. }
  apply Z.div_le_upper_bound; [exact H2|].
  now rewrite (Z.mul_comm (2 ^ expo c)).
Qed.

End IntMul.

Lemma x_start_half w : 0 < w < 2 ^ 53 -> x_start w = w / 2.
Proof.
  intros Hw. unfold x_start, int_mul. rewrite (round53_small w) by lia.
  cbn [mant expo f_0_50]. change 4503599627370496 with (2 ^ 52).
  rewrite round53_exact.
  - change (2 ^ 53) with (2 ^ 52 * 2). rewrite Z.mul_comm.
    rewrite Z.div_mul_cancel_l; lia.
  - nia.
  - rewrite Z.log2_mul_pow2 by lia.
    replace (52 + Z.log2 w + 1 - 53) with (Z.log2 w) by lia.
    assert (0 <= Z.log2 w < 53).
    { split; [apply Z.log2_nonneg|]. apply Z.log2_lt_pow2; lia. }
    replace (2 ^ 52) with (2 ^ (52 - Z.log2 w) * 2 ^ Z.log2 w).
    + rewrite Z.mul_assoc. apply Z.mod_mul. apply Z.pow_nonzero; lia.
    + rewrite <- Z.pow_add_r by lia. f_equal. lia.
Qed.

Lemma x_end_le w : 0 < w < 2 ^ 53 -> x_end w <= w.
Proof.
  intros Hw. apply int_mul_le; cbn [mant expo f_0_96]; lia.
Qed.

Lemma x_end_gt w : 3 <= w < 2 ^ 53 -> w / 2 + 1 <= x_end w.
Proof.
  intros Hw. pose proof (Z.div_mod w 2 ltac:(lia)).
  pose proof (Z.mod_pos_bound w 2 ltac:(lia)).
  apply int_mul_ge; cbn [mant expo f_0_96]; lia.
Qed.

Lemma y_start_le h : 4 <= h < 2 ^ 53 -> y_start h <= h / 4.
Proof.
  intros Hh. pose proof (Z.div_mod h 4 ltac:(lia)).
  pose proof (Z.mod_pos_bound h 4 ltac:(lia)).
  apply int_mul_le; cbn [mant expo f_0_01]; lia.
Qed.

Lemma y_end_gt h : 4 <= h < 2 ^ 53 -> h / 4 + 1 <= y_end h.
Proof.
  intros Hh. pose proof (Z.div_mod h 4 ltac:(lia)).
  pose proof (Z.mod_pos_bound h 4 ltac:(lia)).
  apply int_mul_ge; cbn [mant expo f_0_96]; lia.
Qed.

Lemma int_mul_nonneg n c :
  0 < n < 2 ^ 53 -> 0 < mant c < 2 ^ 53 -> 53 <= expo c -> 0 <= int_mul n c.
Proof. intros. apply int_mul_ge; try assumption; nia. Qed.

(** C4, as the code has it.  For dimensions from 1 up to what binary64
    holds exactly, the four boundaries are non-negative and do not exceed
    the width and the height; the window holds a pixel exactly when the
    image is at least 3 wide and 2 high. *)
Theorem crop_window_bounds (h w : Z) :
  1 <= w < 2 ^ 53 -> 1 <= h < 2 ^ 53 ->
  in_bounds h w (crop_window h w) /\
  (nonempty (crop_window h w) <-> 3 <= w /\ 2 <= h).
Proof.
  intros Hw Hh. unfold in_bounds, nonempty, crop_window. cbn [x0 x1 y0 y1].
  assert (Hxs : x_start w = w / 2) by (apply x_start_half; lia).
  assert (Hxe : x_end w <= w) by (apply x_end_le; lia).
  assert (Hye : y_end h <= h) by (apply x_end_le; lia).
  assert (Hxe0 : 0 <= x_end w) by (apply int_mul_nonneg; cbn; lia).
  assert (Hye0 : 0 <= y_end h) by (apply int_mul_nonneg; cbn; lia).
  assert (Hys0 : 0 <= y_start h) by (apply int_mul_nonneg; cbn; lia).
  assert (Hys : y_start h <= h).
  { apply int_mul_le; cbn [mant expo f_0_01]; lia. }
  pose proof (Z.div_mod w 2 ltac:(lia)).
  pose proof (Z.mod_pos_bound w 2 ltac:(lia)).
  split; [lia|].
  assert (Hx : w / 2 < x_end w <-> 3 <= w).
  { destruct (Z.eq_dec w 1) as [->|]; [vm_compute; intuition congruence|].
    destruct (Z.eq_dec w 2) as [->|]; [vm_compute; intuition congruence|].
    pose proof (x_end_gt w ltac:(lia)). lia. }
  assert (Hy : y_start h < y_end h <-> 2 <= h).
  { destruct (Z.eq_dec h 1) as [->|]; [vm_compute; intuition congruence|].
    destruct (Z.eq_dec h 2) as [->|]; [vm_compute; intuition congruence|].
    destruct (Z.eq_dec h 3) as [->|]; [vm_compute; intuition congruence|].
    pose proof (y_start_le h ltac:(lia)). pose proof (y_end_gt h ltac:(lia)).
    lia. }
  rewrite Hxs. tauto.
Qed.

Lemma crop_window_bounds_witness :
  in_bounds 1080 1920 (crop_window 1080 1920) /\
  (nonempty (crop_window 1080 1920) <-> 3 <= 1920 /\ 2 <= 1080).
Proof.
  apply (crop_window_bounds 1080 1920); vm_compute; split; congruence.
Defined.

(** C4, as the specification words it, fails: a 2 by 2 image has
    [x_start = x_end = 1], an empty window. *)
Lemma crop_window_empty :
  1 <= 2 /\ x_start 2 = 1 /\ x_end 2 = 1 /\ ~ nonempty (crop_window 2 2).
Proof.
  repeat split; try (vm_compute; congruence).
  intros [H _]. vm_compute in H. discriminate.
Qed.

End CropFacts.

(** ** Bounded patterns *)


Section Bounded.

Variable cs : list cset.
Hypothesis cs_nonempty : cs <> [].
Hypothesis cs_word : forall c x, In c cs -> cmatch c x = true -> is_word x = true.



End Bounded.

Lemma prev_after_app a b prev :
  prev_after (a ++ b) prev = prev_after b (prev_after a prev).
Proof. revert prev; induction a as [|c a IH]; intros prev; cbn; auto. Qed.

Section SubApp.

Variables (r : regex) (t : list titem).


Lemma sub_from_skip_all :
  (forall p, match_at r false p [] = None) ->
  forall s p, sub_from r t p s (length s) = [].
Proof.
  intros H. induction s as [|c s IH]; intros p.
  - now apply sub_from_end.
  - cbn [length]. rewrite sub_from_skip. apply IH.
Qed.

End SubApp.

Section BoundedSub.

Variable cs : list cset.
Hypothesis cs_nonempty : cs <> [].
Hypothesis cs_word : forall c x, In c cs -> cmatch c x = true -> is_word x = true.
Variable t : list titem.
















End BoundedSub.

(** ** Tables of bounded patterns *)


Lemma lower_lower (x : ascii) : lower_char (lower_char x) = lower_char x.
Proof.
  destruct x as [[|] [|] [|] [|] [|] [|] [|] [|]]; vm_compute; reflexivity.
Qed.




(** ** Bounded patterns under [re.IGNORECASE] *)





(** ** [str.replace] around a whole word *)

Section Replace.

Variables old new : str.
Hypothesis old_nonempty : old <> [].
Hypothesis old_word : forallb is_word old = true.

Lemma starts_with_length : forall p s,
  starts_with p s = true -> length p <= length s.
Proof.
  induction p as [|a p IH]; intros [|b s] H; cbn in *; try lia; try discriminate.
  apply andb_true_iff in H as [_ H]. apply IH in H. lia.
Qed.



Lemma replace_from_app b : forall a skip,
  skip <= length a ->
  (forall a1 c a2, a = a1 ++ c :: a2 ->
     starts_with old (c :: a2 ++ b) = starts_with old (c :: a2)) ->
  replace_from old new (a ++ b) skip
  = replace_from old new a skip ++ replace_from old new b 0.
Proof.
  induction a as [|c a IH]; intros skip Hskip Hin.
  - cbn [length] in Hskip. now assert (skip = 0) as -> by lia.
  - assert (Htail : forall a1 c0 a2, a = a1 ++ c0 :: a2 ->
       starts_with old (c0 :: a2 ++ b) = starts_with old (c0 :: a2)).
    { intros a1 c0 a2 E. apply (Hin (c :: a1) c0 a2). now rewrite E. }
    cbn [app length replace_from] in *. destruct skip as [|j].
    + rewrite (Hin [] c a eq_refl).
      destruct (starts_with old (c :: a)) eqn:E.
      * apply starts_with_length in E. cbn [length] in E.
        rewrite IH by (auto; lia). now rewrite app_assoc.
      * now rewrite IH by (auto; lia).
    + apply IH; auto. lia.
Qed.





End Replace.


(** ** The misspelling tables (lines 106-133) *)

Section Tables.





Variables pre w post : str.
Hypothesis Hw : whole_word pre w post.





End Tables.




(** The entries of the tables through the whole of [_clean_line]: alone on
    a line, and inside a label. *)
Lemma misspellings_through_clean_line :
  Forall (fun g => _clean_line (lit g) = lit "Range"
                   /\ _clean_line (lit "24H " ++ lit g ++ lit " Extreme High")
                      = lit "24H Range Extreme High") range_variants /\
  Forall (fun g => _clean_line (lit g) = lit "Exhaustion"
                   /\ _clean_line (lower (lit g)) = lit "Exhaustion"
                   /\ _clean_line (lit "24H Range " ++ lit g ++ lit " High")
                      = lit "24H Range Exhaustion High") exhaustion_variants /\
  Forall (fun g => _clean_line (lit g) = lit "High"
                   /\ _clean_line (lit "24H Range Extreme " ++ lit g)
                      = lit "24H Range Extreme High") high_variants /\
  Forall (fun gc => _clean_line (lit (fst gc)) = lit (snd gc)
                    /\ _clean_line (lit "(Bias " ++ lit (fst gc) ++ lit " Zone)")
                       = lit "(Bias " ++ lit (snd gc) ++ lit " Zone)")
         zone_type_variants.
Proof. repeat constructor; vm_compute; reflexivity. Qed.

(** ** Running the normalizer twice *)

Section Trim.

Lemma lstrip_snoc (u : str) (c : ascii) :
  is_space c = false -> lstrip (u ++ [c]) = lstrip u ++ [c].
Proof.
  intros Hc. induction u as [|d u IH]; cbn [app lstrip].
  - now rewrite Hc.
  - now destruct (is_space d).
Qed.

Lemma lstrip_idem (s : str) : lstrip (lstrip s) = lstrip s.
Proof.
  induction s as [|c s IH]; [reflexivity|]. cbn [lstrip].
  destruct (is_space c) eqn:Hc; [exact IH|]. cbn [lstrip]. now rewrite Hc.
Qed.

Lemma rstrip_idem (s : str) : rstrip (rstrip s) = rstrip s.
Proof. unfold rstrip. now rewrite rev_involutive, lstrip_idem. Qed.

Lemma rstrip_cons (c : ascii) (s : str) :
  is_space c = false -> rstrip (c :: s) = c :: rstrip s.
Proof.
  intros Hc. unfold rstrip. cbn [rev].
  now rewrite lstrip_snoc, rev_app_distr.
Qed.

Lemma lstrip_rstrip_lstrip (s : str) :
  lstrip (rstrip (lstrip s)) = rstrip (lstrip s).
Proof.
  induction s as [|c s IH]; [reflexivity|]. cbn [lstrip].
  destruct (is_space c) eqn:Hc; [exact IH|].
  rewrite rstrip_cons by exact Hc. cbn [lstrip]. now rewrite Hc.
Qed.

Lemma strip_idem (s : str) : strip (strip s) = strip s.
Proof.
  unfold strip. now rewrite lstrip_rstrip_lstrip, rstrip_idem.
Qed.

End Trim.

(** C2, as the specification words it, fails: each rule is one pass, and
    a second run finds what the first one has made. *)
Lemma clean_line_not_idempotent :
  _clean_line (lit "1 2 3") = lit "12 3" /\
  _clean_line (_clean_line (lit "1 2 3")) = lit "123" /\
  _clean_line (_clean_line (lit "1 2 3")) <> _clean_line (lit "1 2 3").
Proof. repeat split; vm_compute; (reflexivity || discriminate). Qed.

(** C2, as the code has it.  A normalized line is trimmed, so that
    trimming it again changes nothing; and the labels of the end-to-end
    scenario are left as they are by the normalizer. *)
Theorem clean_line_trimmed :
  (forall line, strip (_clean_line line) = _clean_line line) /\
  Forall (fun L => _clean_line L = L) scenario_labels.
Proof.
  split.
  - intros line. unfold _clean_line. apply strip_idem.
  - repeat constructor; vm_compute; reflexivity.
Qed.

(** The word of C9 through the whole of [_clean_line]. *)
Lemma clean_line_station : _clean_line (lit "STATION") = lit "STATIO/N".
Proof. vm_compute. reflexivity. Qed.

(** ** Leading noise (line 93) *)

Section Greedy.

Variables (cs : cset) (adv : bool).

Let final : cont :=
  fun n _ _ g => if adv && (n =? 0) then None else Some (n, g).

(** At the end of a pattern a greedy repetition takes all it can. *)
Lemma star_final : forall s n prev g,
  0 < n -> star cs final n prev s g = Some (n + span cs s, g).
Proof.
  induction s as [|c s IH]; intros n prev g Hn; cbn [star span].
  - unfold final. destruct n; [lia|]. cbn [Nat.eqb]. rewrite andb_false_r.
    now rewrite Nat.add_0_r.
  - destruct (cmatch cs c).
    + rewrite IH by lia. now rewrite Nat.add_succ_r.
    + unfold final. destruct n; [lia|]. cbn [Nat.eqb]. rewrite andb_false_r.
      now rewrite Nat.add_0_r.
Qed.

End Greedy.

Lemma noise_set_char c : cmatch noise_set c = noise_char c.
Proof.
  unfold noise_char, noise_set. cbn [cmatch existsb imatch].
  rewrite !(Ascii.eqb_sym c).
  destruct (Ascii.eqb "|" c), (Ascii.eqb "!" c), (Ascii.eqb DQUOTE c),
    (Ascii.eqb "'" c), (Ascii.eqb "," c), (Ascii.eqb "." c),
    (Ascii.eqb ";" c), (Ascii.eqb ":" c), (is_space c); reflexivity.
Qed.

Lemma leading_noise_later s p adv :
  match_at leading_noise adv (Some p) s = None.
Proof. reflexivity. Qed.

Lemma sub_leading_noise_later : forall s p,
  sub_from leading_noise [] (Some p) s 0 = s.
Proof.
  induction s as [|c s IH]; intros p.
  - now apply sub_from_end.
  - rewrite sub_from_miss by apply leading_noise_later. now rewrite IH.
Qed.

Lemma leading_noise_start c s :
  match_at leading_noise false None (c :: s)
  = if noise_char c then Some (S (span noise_set s), []) else None.
Proof.
  unfold match_at, leading_noise. fold noise_set. cbn [run].
  rewrite noise_set_char. destruct (noise_char c); [|reflexivity].
  now rewrite (star_final noise_set false) by lia.
Qed.

Lemma skipn_span s : skipn (span noise_set s) s = drop_noise s.
Proof.
  induction s as [|c s IH]; [reflexivity|]. cbn [span drop_noise].
  rewrite noise_set_char. destruct (noise_char c); [exact IH | reflexivity].
Qed.

Lemma span_le cs s : span cs s <= length s.
Proof.
  induction s as [|c s IH]; cbn [span length]; [lia|].
  destruct (cmatch cs c); lia.
Qed.

Lemma strip_leading_noise_drop s : strip_leading_noise s = drop_noise s.
Proof.
  unfold strip_leading_noise, re_sub. destruct s as [|c s].
  - reflexivity.
  - cbn [drop_noise]. destruct (noise_char c) eqn:Hc.
    + rewrite (sub_from_hit _ _ _ _ _ (span noise_set s) []).
      2:{ rewrite leading_noise_start. now rewrite Hc. }
      cbn [expand flat_map app].
      assert (H : forall s j p, j <= length s ->
                  sub_from leading_noise [] (Some p) s j = skipn j s).
      { clear. induction s as [|d s IH]; intros j p Hj.
        - cbn [length] in Hj. assert (j = 0) as -> by lia. reflexivity.
        - destruct j as [|j]; [apply sub_leading_noise_later|].
          cbn [length] in Hj. rewrite sub_from_skip. apply IH. lia. }
      rewrite H by apply span_le. apply skipn_span.
    + rewrite sub_from_miss.
      * now rewrite sub_leading_noise_later.
      * rewrite leading_noise_start. now rewrite Hc.
Qed.

(** Line 93 removes exactly the longest prefix of noise characters
    (quotes, bar, bang, comma, point, semicolon, colon, whitespace):
    the line is that prefix followed by the result, and the result does
    not start with a noise character. *)
Theorem strip_leading_noise_prefix (line : str) :
  exists noise,
    line = noise ++ strip_leading_noise line /\
    forallb noise_char noise = true /\
    match strip_leading_noise line with
    | c :: _ => noise_char c = false
    | [] => True
    end.
Proof.
  rewrite strip_leading_noise_drop.
  induction line as [|c s [noise [H1 [H2 H3]]]].
  - exists []. repeat split.
  - cbn [drop_noise]. destruct (noise_char c) eqn:Hc.
    + exists (c :: noise). cbn [app forallb]. rewrite Hc, H2.
      split; [now f_equal | split; [reflexivity | exact H3]].
    + exists []. cbn [app forallb]. rewrite Hc. repeat split.
Qed.

(** ** Brackets (lines 95-97) *)

Lemma replace_char (a b : ascii) : forall s,
  replace [a] [b] s = map (fun c => if Ascii.eqb a c then b else c) s.
Proof.
  unfold replace. induction s as [|c s IH]; [reflexivity|].
  cbn [replace_from starts_with map length Nat.sub app].
  rewrite andb_true_r. destruct (Ascii.eqb a c); cbn [app]; now rewrite IH.
Qed.

Lemma to_paren_steps (c : ascii) :
  (fun c => if Ascii.eqb "}" c then ")"%char else c)
    ((fun c => if Ascii.eqb "]" c then ")"%char else c)
       ((fun c => if Ascii.eqb "{" c then "("%char else c)
          ((fun c => if Ascii.eqb "[" c then "("%char else c) c)))
  = to_paren c.
Proof.
  destruct c as [[|] [|] [|] [|] [|] [|] [|] [|]]; vm_compute; reflexivity.
Qed.

Lemma to_paren_no_bracket (c : ascii) :
  existsb (Ascii.eqb (to_paren c)) ["["; "{"; "]"; "}"]%char = false.
Proof.
  destruct c as [[|] [|] [|] [|] [|] [|] [|] [|]]; vm_compute; reflexivity.
Qed.

(** Lines 96-97 map every square or curly bracket to the parenthesis of
    the same direction and touch nothing else: the length is kept, and no
    square or curly bracket is left. *)
Theorem fix_brackets_map (line : str) :
  fix_brackets line = map to_paren line /\
  length (fix_brackets line) = length line /\
  forall c, In c (fix_brackets line) ->
            c <> "["%char /\ c <> "{"%char /\ c <> "]"%char /\ c <> "}"%char.
Proof.
  assert (H : fix_brackets line = map to_paren line).
  { unfold fix_brackets. cbv zeta. change (lit "[") with ["["%char].
    change (lit "{") with ["{"%char]. change (lit "]") with ["]"%char].
    change (lit "}") with ["}"%char]. change (lit "(") with ["("%char].
    change (lit ")") with [")"%char].
    rewrite !replace_char, !map_map. apply map_ext. apply to_paren_steps. }
  split; [exact H|]. rewrite H. split; [apply length_map|].
  intros c Hc. apply in_map_iff in Hc as [d [<- _]].
  pose proof (to_paren_no_bracket d) as Hn. cbn [existsb] in Hn.
  rewrite !orb_false_iff in Hn. destruct Hn as [H1 [H2 [H3 [H4 _]]]].
  repeat split; intros E; rewrite E in *; discriminate.
Qed.

(** ** Doubled closing parentheses (lines 150-151) *)

Lemma close_parens_at adv prev s :
  match_at close_parens adv prev s
  = match s with
    | c :: d :: s' =>
        if Ascii.eqb ")" c && Ascii.eqb ")" d
        then Some (2 + close_run s', []) else None
    | _ => None
    end.
Proof.
  unfold match_at, close_parens. cbn [run cmatch].
  destruct s as [|c [|d s]]; [reflexivity | now destruct (Ascii.eqb ")" c) |].
  destruct (Ascii.eqb ")" c); [|reflexivity]. cbn [andb].
  destruct (Ascii.eqb ")" d); [|reflexivity].
  now rewrite (star_final (CLit ")") adv) by lia.
Qed.

Lemma squeeze_run : forall s,
  starts_with [")"%char] s = true ->
  squeeze s = ")"%char :: squeeze (skipn (close_run s) s).
Proof.
  induction s as [|c s IH]; [discriminate|]. intros Hc.
  cbn [starts_with] in Hc. rewrite andb_true_r in Hc.
  pose proof Hc as Hc'. apply Ascii.eqb_eq in Hc'. subst c.
  unfold close_run. cbn [squeeze span cmatch skipn].
  rewrite Ascii.eqb_refl. cbn [andb].
  destruct (starts_with [")"%char] s) eqn:Hs.
  - now apply IH.
  - f_equal. destruct s as [|d s]; [reflexivity|].
    cbn [starts_with] in Hs. rewrite andb_true_r in Hs.
    cbn [span cmatch]. now rewrite Hs.
Qed.

Lemma sub_close_parens : forall s,
  (forall p, sub_from close_parens [TLit (lit ")")] p s 0 = squeeze s) /\
  (forall p, sub_from close_parens [TLit (lit ")")] p s (close_run s)
             = squeeze (skipn (close_run s) s)).
Proof.
  induction s as [|c s [IH1 IH2]].
  - split; intros p; reflexivity.
  - assert (H1 : forall p,
      sub_from close_parens [TLit (lit ")")] p (c :: s) 0 = squeeze (c :: s)).
    { intros p. cbn [squeeze].
      destruct (Ascii.eqb c ")" && starts_with [")"%char] s) eqn:E.
      - apply andb_true_iff in E as [Ec Es].
        apply Ascii.eqb_eq in Ec. subst c.
        destruct s as [|d s]; [discriminate|].
        pose proof Es as Ed. cbn [starts_with] in Ed.
        rewrite andb_true_r in Ed. apply Ascii.eqb_eq in Ed. subst d.
        rewrite (sub_from_hit _ _ _ _ _ (S (close_run s)) []).
        2:{ rewrite close_parens_at. now rewrite Ascii.eqb_refl. }
        cbn [expand flat_map]. rewrite app_nil_r.
        change (S (close_run s)) with (close_run (")"%char :: s)).
        rewrite IH2. rewrite (squeeze_run (")"%char :: s)) by reflexivity.
        reflexivity.
      - rewrite sub_from_miss; [now rewrite IH1|].
        rewrite close_parens_at. destruct s as [|d s]; [reflexivity|].
        cbn [starts_with] in E. rewrite andb_true_r in E.
        rewrite (Ascii.eqb_sym ")" c). now rewrite E. }
    split; [exact H1|]. intros p. unfold close_run. cbn [span cmatch].
    destruct (Ascii.eqb ")" c).
    + rewrite sub_from_skip. cbn [skipn]. apply IH2.
    + apply H1.
Qed.

Lemma squeeze_head s :
  starts_with [")"%char] (squeeze s) = starts_with [")"%char] s.
Proof.
  induction s as [|c s IH]; [reflexivity|]. cbn [squeeze].
  destruct (Ascii.eqb c ")" && starts_with [")"%char] s) eqn:E.
  - apply andb_true_iff in E as [Ec Es]. rewrite IH, Es.
    cbn [starts_with]. now rewrite (Ascii.eqb_sym ")" c), Ec.
  - reflexivity.
Qed.

Lemma squeeze_no_pair s : contains (lit "))") (squeeze s) = false.
Proof.
  induction s as [|c s IH]; [reflexivity|]. cbn [squeeze].
  destruct (Ascii.eqb c ")" && starts_with [")"%char] s) eqn:E; [exact IH|].
  cbn [contains]. rewrite IH, orb_false_r.
  change (lit "))") with [")"%char; ")"%char]. cbn [starts_with].
  rewrite (Ascii.eqb_sym ")" c).
  destruct (Ascii.eqb c ")"); [|reflexivity]. cbn [andb] in *.
  pose proof (squeeze_head s) as Hh. rewrite E in Hh.
  destruct (squeeze s) as [|d t]; [reflexivity|].
  cbn [starts_with] in Hh. rewrite andb_true_r in Hh. now rewrite Hh.
Qed.

Lemma squeeze_fixed s :
  contains (lit "))") s = false -> squeeze s = s.
Proof.
  induction s as [|c s IH]; [reflexivity|]. intros H.
  cbn [contains] in H. apply orb_false_iff in H as [H1 H2].
  cbn [squeeze]. rewrite (IH H2).
  change (lit "))") with [")"%char; ")"%char] in H1. cbn [starts_with] in H1.
  rewrite (Ascii.eqb_sym ")" c) in H1.
  destruct (Ascii.eqb c ")"); [|reflexivity]. cbn [andb] in *.
  destruct s as [|d t]; [reflexivity|]. cbn [starts_with].
  rewrite andb_true_r in *. now rewrite H1.
Qed.

(** Line 151 drops every closing parenthesis that is followed by another
    one: no two closing parentheses in a row are left, and a second pass
    changes nothing. *)
Theorem collapse_close_parens_squeeze (line : str) :
  collapse_close_parens line = squeeze line /\
  contains (lit "))") (collapse_close_parens line) = false /\
  collapse_close_parens (collapse_close_parens line)
  = collapse_close_parens line.
Proof.
  assert (H : forall s, collapse_close_parens s = squeeze s).
  { intros s. apply (proj1 (sub_close_parens s)). }
  split; [apply H|]. split.
  - rewrite H. apply squeeze_no_pair.
  - rewrite !H. apply squeeze_fixed, squeeze_no_pair.
Qed.

(** ** Doubled opening parentheses (lines 103-104) *)

Lemma open_pairs post :
  starts_with (lit "(") post = false ->
  forall n,
    replace_from (lit "((") (lit "(") (opens n ++ post) 0
    = opens ((n + 1) / 2) ++ replace_from (lit "((") (lit "(") post 0 /\
    replace_from (lit "((") (lit "(") (opens (S n) ++ post) 0
    = opens ((S n + 1) / 2) ++ replace_from (lit "((") (lit "(") post 0.
Proof.
  intros Hpost.
  assert (H1 : replace_from (lit "((") (lit "(") (opens 1 ++ post) 0
               = opens 1 ++ replace_from (lit "((") (lit "(") post 0).
  { cbn [opens repeat app replace_from]. change (lit "((") with ["("%char; "("%char].
    cbn [starts_with]. change (lit "(") with ["("%char] in Hpost.
    destruct post as [|d post]; [reflexivity|].
    cbn [starts_with] in *. rewrite andb_true_r in *. now rewrite Hpost. }
  induction n as [|n [IHa IHb]].
  - split; [reflexivity | exact H1].
  - split; [exact IHb|].
    change (opens (S (S n)) ++ post) with ("("%char :: "("%char :: opens n ++ post).
    cbn [replace_from]. change (starts_with (lit "((") ("("%char :: "("%char :: opens n ++ post)) with true.
    cbv iota. change (length (lit "((") - 1) with 1. cbn [replace_from].
    rewrite IHa.
    replace ((S (S n) + 1) / 2) with (S ((n + 1) / 2)).
    + reflexivity.
    + replace (S (S n) + 1) with (n + 1 + 1 * 2) by lia.
      rewrite Nat.div_add by lia. lia.
Qed.

(** Line 104 is one left-to-right pass of [str.replace]: a run of [n]
    opening parentheses becomes a run of [(n + 1) / 2], so three or more
    in a row are not brought down to one. *)
Theorem collapse_open_parens_run (pre post : str) (n : nat) :
  prev_after pre None <> Some "("%char ->
  starts_with (lit "(") post = false ->
  collapse_open_parens (pre ++ opens n ++ post)
  = collapse_open_parens pre ++ opens ((n + 1) / 2) ++ collapse_open_parens post.
Proof.
  intros Hpre Hpost. unfold collapse_open_parens, replace.
  rewrite replace_from_app; [| lia |].
  - f_equal. apply (open_pairs post Hpost n).
  - intros a1 c a2 E. change (lit "((") with ["("%char; "("%char].
    cbn [starts_with]. destruct (Ascii.eqb "(" c) eqn:Ec; [|reflexivity].
    cbn [andb]. destruct a2 as [|d a2]; [|reflexivity].
    exfalso. apply Hpre. rewrite E, prev_after_app. cbn [prev_after].
    apply Ascii.eqb_eq in Ec. now subst.
Qed.

Lemma collapse_open_parens_run_witness :
  collapse_open_parens (lit "a (((b") = lit "a ((b".
Proof.
  apply (collapse_open_parens_run (lit "a ") (lit "b") 3).
  - discriminate.
  - reflexivity.
Defined.

(** ** The lines of the OCR text (lines 70-87) *)

(** ** The lines of the OCR text *)

Lemma splitlines_from_chars : forall n s cur l c,
  length s <= n ->
  In l (splitlines_from cur s) -> In c l ->
  In c cur \/ (In c s /\ is_linebreak c = false).
Proof.
  induction n as [|n IH]; intros s cur l c Hn Hl Hc.
  - destruct s; [|cbn in Hn; lia]. cbn in Hl.
    destruct cur; [contradiction|]. destruct Hl as [<-|[]]. now left.
  - destruct s as [|x s].
    + cbn in Hl. destruct cur; [contradiction|]. destruct Hl as [<-|[]]. now left.
    + cbn [length] in Hn. cbn [splitlines_from] in Hl.
      destruct (is_linebreak x) eqn:Hx.
      * destruct s as [|y s].
        -- destruct Hl as [<-|[]]. now left.
        -- destruct (Ascii.eqb x CR && Ascii.eqb y LF).
           ++ destruct Hl as [<-|Hl]; [now left|].
              destruct (IH s [] l c ltac:(cbn [length] in Hn; lia) Hl Hc)
                as [[]|[H1 H2]].
              right. split; [right; now right | exact H2].
           ++ destruct Hl as [<-|Hl]; [now left|].
              destruct (IH (y :: s) [] l c ltac:(lia) Hl Hc) as [[]|[H1 H2]].
              right. split; [now right | exact H2].
      * destruct (IH s (cur ++ [x]) l c ltac:(lia) Hl Hc) as [H|[H1 H2]].
        -- apply in_app_or in H as [H|[<-|[]]]; [now left|].
           right. split; [now left | exact Hx].
        -- right. split; [now right | exact H2].
Qed.

Lemma splitlines_chars text l c :
  In l (splitlines text) -> In c l -> In c text /\ is_linebreak c = false.
Proof.
  intros Hl Hc.
  destruct (splitlines_from_chars (length text) text [] l c (le_n _) Hl Hc)
    as [[]|H]; exact H.
Qed.

Lemma lstrip_suffix s : exists a, s = a ++ lstrip s.
Proof.
  induction s as [|c s [a IH]]; [now exists []|]. cbn [lstrip].
  destruct (is_space c); [|now exists []].
  exists (c :: a). cbn [app]. now f_equal.
Qed.

Lemma strip_chars s c : In c (strip s) -> In c s.
Proof.
  unfold strip, rstrip. intros H. apply in_rev in H.
  destruct (lstrip_suffix (rev (lstrip s))) as [a Ha].
  assert (H1 : In c (rev (lstrip s))) by (rewrite Ha; apply in_or_app; now right).
  apply in_rev in H1. destruct (lstrip_suffix s) as [b Hb].
  rewrite Hb. apply in_or_app. now right.
Qed.

Lemma normalizer_inputs_are_lines (text line : str) :
  In line (normalizer_inputs text) ->
  line <> [] /\ strip line = line /\
  forall c, In c line -> In c text /\ is_linebreak c = false.
Proof.
  unfold normalizer_inputs. intros H. apply filter_In in H as [H Hne].
  apply in_map_iff in H as [raw [<- Hraw]].
  split; [|split].
  - unfold nonempty_line in Hne. destruct (strip raw); [discriminate | discriminate].
  - apply strip_idem.
  - intros c Hc. apply strip_chars in Hc. now apply (splitlines_chars text raw).
Qed.

Lemma process_text_inputs text :
  process_text text
  = filter (fun l => has_keyword (lower l))
      (filter nonempty_line (map _clean_line (normalizer_inputs text))).
Proof. now rewrite process_text_survivors. Qed.

(** Every line handed to [_clean_line] is non-empty, trimmed, and made of
    characters of the OCR text other than line boundaries. *)
Theorem clean_line_inputs (text : str) :
  process_text text
  = filter (fun l => has_keyword (lower l))
      (filter nonempty_line (map _clean_line (normalizer_inputs text))) /\
  Forall (fun line =>
            line <> [] /\ strip line = line /\
            forall c, In c line -> In c text /\ is_linebreak c = false)
         (normalizer_inputs text).
Proof.
  split; [apply process_text_inputs|].
  apply Forall_forall. intros line. apply normalizer_inputs_are_lines.
Qed.

(** ** Where the labels come from *)

Lemma keep_provenance raw L :
  In L (keep raw) -> exists r, In r raw /\ strip r <> [] /\ L = _clean_line (strip r).
Proof.
  unfold keep. intros H. apply filter_In in H as [H _].
  apply filter_In in H as [H _]. apply in_map_iff in H as [x [<- H]].
  apply filter_In in H as [H Hne]. apply in_map_iff in H as [r [<- Hr]].
  exists r. split; [exact Hr|]. split; [|reflexivity].
  unfold nonempty_line in Hne. now destruct (strip r).
Qed.

Lemma filter_length_le {A} (f : A -> bool) (l : list A) :
  length (filter f l) <= length l.
Proof.
  induction l as [|x l IH]; [reflexivity|]. cbn [filter].
  destruct (f x); cbn [length]; lia.
Qed.

Lemma keep_length raw : length (keep raw) <= length raw.
Proof.
  unfold keep.
  eapply Nat.le_trans; [apply filter_length_le|].
  eapply Nat.le_trans; [apply filter_length_le|].
  rewrite length_map.
  eapply Nat.le_trans; [apply filter_length_le|].
  now rewrite length_map.
Qed.

(** Every label returned is [_clean_line] of the trimmed text of one line
    of what the OCR engine read in the crop window of the loaded image;
    there are no more labels than lines. *)
Theorem extract_zones_provenance (b : backend) (image_path : str)
        (labels : list str) :
  extract_zones b image_path = Return labels ->
  exists img text,
    imread b image_path = Some img /\
    ocr_text b img (Crop.crop_window (fst (shape b img)) (snd (shape b img)))
    = Some text /\
    length labels <= length (splitlines text) /\
    forall L, In L labels ->
      exists raw, In raw (splitlines text) /\ strip raw <> [] /\
                  L = _clean_line (strip raw).
Proof.
  unfold extract_zones. intros H.
  destruct (imread b image_path) as [img|]; [|discriminate].
  destruct (shape b img) as [h w] eqn:Hs.
  destruct (ocr_text b img (Crop.crop_window h w)) as [text|] eqn:Ho;
    [|discriminate].
  injection H as <-. exists img, text. rewrite Hs. cbn [fst snd].
  split; [reflexivity|]. split; [exact Ho|].
  rewrite process_text_survivors. unfold survivors.
  split; [apply keep_length | apply keep_provenance].
Qed.

Lemma extract_zones_provenance_witness :
  extract_zones demo_backend (lit "chart.png") = Return demo_labels /\
  exists img text,
    imread demo_backend (lit "chart.png") = Some img /\
    ocr_text demo_backend img
      (Crop.crop_window (fst (shape demo_backend img))
                        (snd (shape demo_backend img))) = Some text /\
    length demo_labels <= length (splitlines text) /\
    forall L, In L demo_labels ->
      exists raw, In raw (splitlines text) /\ strip raw <> [] /\
                  L = _clean_line (strip raw).
Proof.
  split.
  - vm_compute. reflexivity.
  - apply (extract_zones_provenance demo_backend (lit "chart.png")).
    vm_compute. reflexivity.
Defined.

(** ** A text with nothing to read *)

Lemma lstrip_blank s : forallb is_space s = true -> lstrip s = [].
Proof.
  induction s as [|c s IH]; [reflexivity|]. cbn [forallb lstrip].
  intros H. apply andb_true_iff in H as [Hc Hs]. rewrite Hc. now apply IH.
Qed.

(** An OCR text made of whitespace only (the empty text too) gives no
    label at all. *)
Theorem blank_text_no_labels (text : str) :
  forallb is_space text = true -> process_text text = [].
Proof.
  intros H. rewrite process_text_inputs.
  assert (Hin : normalizer_inputs text = []).
  { unfold normalizer_inputs.
    assert (Hall : forall l, In l (splitlines text) -> strip l = []).
    { intros l Hl. unfold strip. rewrite lstrip_blank; [reflexivity|].
      apply forallb_forall. intros c Hc.
      destruct (splitlines_chars text l c Hl Hc) as [Hc' _].
      rewrite forallb_forall in H. now apply H. }
    induction (splitlines text) as [|l ls IH]; [reflexivity|].
    cbn [map filter]. rewrite (Hall l) by now left.
    cbn. apply IH. intros l' Hl'. apply Hall. now right. }
  now rewrite Hin.
Qed.

Lemma blank_text_no_labels_witness :
  process_text (lit "   " ++ [CR; LF] ++ lit "  " ++ [LF]) = [].
Proof.
  apply (blank_text_no_labels (lit "   " ++ [CR; LF] ++ lit "  " ++ [LF])).
  vm_compute. reflexivity.
Defined.

(** ** Line endings, and [main] (lines 173-182) *)

Lemma splitlines_from_app : forall l cur rest,
  forallb (fun c => negb (is_linebreak c)) l = true ->
  splitlines_from cur (l ++ rest) = splitlines_from (cur ++ l) rest.
Proof.
  induction l as [|c l IH]; intros cur rest H.
  - now rewrite app_nil_r.
  - cbn [forallb] in H. apply andb_true_iff in H as [Hc Hl].
    apply negb_true_iff in Hc. cbn [app splitlines_from]. rewrite Hc.
    rewrite IH by exact Hl. now rewrite <- app_assoc.
Qed.

Lemma splitlines_from_LF cur rest :
  splitlines_from cur (LF :: rest) = cur :: splitlines_from [] rest.
Proof. destruct rest; reflexivity. Qed.

Lemma splitlines_from_CRLF cur rest :
  splitlines_from cur (CR :: LF :: rest) = cur :: splitlines_from [] rest.
Proof. reflexivity. Qed.

Lemma splitlines_join_endings (lines : list str) :
  Forall (fun l => forallb (fun c => negb (is_linebreak c)) l = true) lines ->
  splitlines (join [LF] lines) = splitlines (join [CR; LF] lines).
Proof.
  unfold splitlines. induction 1 as [|l ls Hl Hls IH]; [reflexivity|].
  cbn [join]. destruct ls as [|l' ls]; [reflexivity|].
  rewrite (splitlines_from_app l [] ([LF] ++ join [LF] (l' :: ls)) Hl).
  rewrite (splitlines_from_app l [] ([CR; LF] ++ join [CR; LF] (l' :: ls)) Hl).
  cbn [app]. rewrite splitlines_from_LF, splitlines_from_CRLF. now rewrite IH.
Qed.

(** The labels do not depend on how the OCR engine ends its lines. *)
Theorem line_endings_do_not_matter (lines : list str) :
  Forall (fun l => forallb (fun c => negb (is_linebreak c)) l = true) lines ->
  process_text (join [CR; LF] lines) = process_text (join [LF] lines).
Proof.
  intros H. unfold process_text. now rewrite (splitlines_join_endings lines H).
Qed.

Lemma line_endings_do_not_matter_witness :
  process_text (lit "Support Zone 1" ++ [CR; LF] ++ lit "noise" ++ [CR; LF]
                ++ lit "HVN 2")
  = process_text (lit "Support Zone 1" ++ [LF] ++ lit "noise" ++ [LF]
                  ++ lit "HVN 2").
Proof.
  apply (line_endings_do_not_matter
           [lit "Support Zone 1"; lit "noise"; lit "HVN 2"]).
  repeat constructor.
Defined.

(** ** [main] *)

Lemma extract_zones_cases (b : backend) (image_path : str) :
  match extract_zones b image_path with
  | Return labels => imread b image_path <> None /\ Forall label_ok labels
  | Raise (FileNotFoundError _) => imread b image_path = None
  | Raise ExternalError => imread b image_path <> None
  end.
Proof.
  unfold extract_zones. destruct (imread b image_path) as [img|]; [|reflexivity].
  destruct (shape b img) as [h w].
  destruct (ocr_text b img (Crop.crop_window h w)) as [text|].
  - split; [discriminate | apply process_text_labels].
  - discriminate.
Qed.

(** [main]: without an argument it prints the usage line and exits with
    status 1; a missing image ends it with the uncaught FileNotFoundError
    and nothing printed; when it finishes it has printed the labels of
    [extract_zones], one per line, each a well-formed label. *)
Theorem main_endings (b : backend) (argv : list str) :
  (ending_of (main b argv) = Exit 1 <-> length argv < 2) /\
  (length argv < 2 -> stdout (main b argv) = usage ++ [LF]) /\
  ((exists msg, ending_of (main b argv) = Uncaught (FileNotFoundError msg))
   <-> 2 <= length argv /\ imread b (nth 1 argv []) = None) /\
  (forall e, ending_of (main b argv) = Uncaught e -> stdout (main b argv) = []) /\
  (ending_of (main b argv) = Finished ->
   exists labels,
     extract_zones b (nth 1 argv []) = Return labels /\
     stdout (main b argv) = print_all labels /\
     Forall label_ok labels).
Proof.
  unfold main. destruct (Nat.ltb_spec (length argv) 2) as [Hlt|Hge].
  - cbn [ending_of stdout].
    split; [split; [intros _; exact Hlt | reflexivity]|].
    split; [reflexivity|].
    split; [split; [intros [msg H]; discriminate | intros [H _]; lia]|].
    split; [intros e H; discriminate | intros H; discriminate].
  - pose proof (extract_zones_cases b (nth 1 argv [])) as Hc.
    destruct (extract_zones b (nth 1 argv [])) as [lines|[msg|]];
      cbn [ending_of stdout].
    + destruct Hc as [Hc1 Hc2].
      split; [split; [discriminate | lia]|].
      split; [lia|].
      split; [split; [intros [msg H]; discriminate | intros [_ H]; contradiction]|].
      split; [intros e H; discriminate|].
      intros _. exists lines. repeat split. exact Hc2.
    + split; [split; [discriminate | lia]|].
      split; [lia|].
      split; [split; [intros _; split; [exact Hge | exact Hc]
                     | intros _; now exists msg]|].
      split; [reflexivity | discriminate].
    + split; [split; [discriminate | lia]|].
      split; [lia|].
      split; [split; [intros [msg H]; discriminate | intros [_ H]; contradiction]|].
      split; [reflexivity | discriminate].
Qed.

Lemma main_endings_witness :
  stdout (main demo_backend [lit "extract_zones.py"]) = usage ++ [LF].
Proof.
  apply (proj1 (proj2 (main_endings demo_backend [lit "extract_zones.py"]))).
  cbn [length]. lia.
Defined.

(** ** The closing parenthesis (lines 147-148) *)

Section ClosingWord.

Variable k : cont.

Lemma closing_word_miss n p y g :
  match y with c :: _ => not_initial c = true | [] => True end ->
  run closing_word n p y g k = None.
Proof.
  intros Hy. unfold closing_word. re_eval. destruct y as [|c y]; [reflexivity|].
  unfold not_initial in Hy. apply negb_true_iff in Hy.
  rewrite !orb_false_iff in Hy. destruct Hy as [[H1 H2] H3].
  now rewrite H1, H2, H3.
Qed.

Lemma closing_word_hit (w : string) n p rest g :
  In w closing_words ->
  exists q,
    run closing_word n p (lit w ++ rest) g k
    = k (n + length (lit w)) (Some q) rest g.
Proof.
  intros Hw. cbn [In closing_words] in Hw.
  destruct Hw as [<-|[<-|[<-|[]]]]; unfold closing_word; re_eval;
    cbn [lit list_ascii_of_string app length]; ev_chars;
    rewrite ?Nat.add_succ_r, ?Nat.add_0_r.
  - exists "e"%char. now destruct (k _ _ _ _).
  - exists "s"%char. now destruct (k _ _ _ _).
  - exists "h"%char. reflexivity.
Qed.

End ClosingWord.

Section BackTrack.

Variables (cs : cset) (K : cont).

(** Where the rest of the pattern fails at every position, so does the
    repetition before it. *)
Lemma star_none : forall r n p g,
  (forall y, (exists x, r = x ++ y) -> forall n' p', K n' p' y g = None) ->
  star cs K n p r g = None.
Proof.
  induction r as [|c r IH]; intros n p g H; cbn [star].
  - apply H. now exists [].
  - rewrite IH.
    + destruct (cmatch cs c); apply H; now exists [].
    + intros y [x ->] n' p'. apply H. now exists (c :: x).
Qed.

(** A greedy repetition gives back characters down to the last position
    at which the rest of the pattern succeeds. *)
Lemma star_backtrack : forall m c r n p g res,
  forallb (cmatch cs) m = true -> cmatch cs c = true ->
  (forall y, (exists x, r = x ++ y) -> forall n' p', K n' p' y g = None) ->
  (forall p', K (n + length m) p' (c :: r) g = Some res) ->
  star cs K n p (m ++ c :: r) g = Some res.
Proof.
  induction m as [|x m IH]; intros c r n p g res Hm Hc Hr HK.
  - cbn [app star]. rewrite Hc, star_none by exact Hr.
    cbn [length] in HK. rewrite Nat.add_0_r in HK. apply HK.
  - cbn [forallb] in Hm. apply andb_true_iff in Hm as [Hx Hm].
    cbn [app star]. rewrite Hx.
    rewrite (IH c r (S n) (Some x) g res); auto.
    intros p'. cbn [length] in HK. rewrite Nat.add_succ_r in HK. apply HK.
Qed.

End BackTrack.

Section ToTheEnd.

Variable adv : bool.

Let final : cont :=
  fun n _ _ g => if adv && (n =? 0) then None else Some (n, g).

(** [\s*$] on what is left of a line when only whitespace is left. *)
Lemma spaces_to_end : forall ws n p g,
  0 < n -> forallb is_space ws = true ->
  star CSpace (fun n' p' s' g' => run (RSeq REol REps) n' p' s' g' final)
       n p ws g
  = Some (n + length ws, g).
Proof.
  induction ws as [|c ws IH]; intros n p g Hn Hws.
  - cbn [star run length]. unfold final. destruct n; [lia|].
    cbn [Nat.eqb]. now rewrite andb_false_r, Nat.add_0_r.
  - cbn [forallb] in Hws. apply andb_true_iff in Hws as [Hc Hws].
    cbn [star cmatch]. rewrite Hc, IH by (auto; lia).
    cbn [length]. now rewrite Nat.add_succ_r.
Qed.

End ToTheEnd.

Lemma run_char_hit c n p s g k :
  run (RChar (CLit c)) n p (c :: s) g k = k (S n) (Some c) s g.
Proof. cbn [run cmatch]. now rewrite Ascii.eqb_refl. Qed.

Lemma unclosed_paren_at (body ws : str) (w : string) (prev : option ascii) :
  ~ In ")"%char body -> In w closing_words -> forallb is_space ws = true ->
  match_at unclosed_paren false prev ("("%char :: body ++ lit w ++ ws)
  = Some (S (length (body ++ lit w ++ ws)), [(1, body ++ lit w)]).
Proof.
  intros Hbody Hw Hws.
  unfold match_at, unclosed_paren. fold closing_word.
  cbn [rseq fold_right]. rewrite run_seq, run_char_hit.
  rewrite run_seq, run_group, run_seq, run_star.
  set (s1 := body ++ lit w ++ ws) at 1.
  assert (Hkw : exists c r, lit w = c :: r /\
                  cmatch (CNotIn [IChar ")"]) c = true /\
                  forallb not_initial r = true).
  { cbn [In closing_words] in Hw. destruct Hw as [<-|[<-|[<-|[]]]];
      eexists; eexists; (split; [reflexivity|]); split; reflexivity. }
  destruct Hkw as [c [r [Hcr [Hc Hr]]]].
  assert (Hsp : forall x, is_space x = true -> not_initial x = true).
  { intros x. destruct x as [[|] [|] [|] [|] [|] [|] [|] [|]];
      vm_compute; congruence. }
  assert (Hquiet : forallb not_initial (r ++ ws) = true).
  { rewrite forallb_app, Hr. cbn [andb]. apply forallb_forall.
    intros x Hx. apply Hsp. rewrite forallb_forall in Hws. now apply Hws. }
  rewrite Hcr. cbn [app].
  erewrite (star_backtrack (CNotIn [IChar ")"]) _ body c (r ++ ws)).
  - reflexivity.
  - apply forallb_forall. intros x Hx. cbn [cmatch existsb imatch].
    rewrite orb_false_r. apply negb_true_iff, Ascii.eqb_neq.
    intros E. apply Hbody. now subst x.
  - exact Hc.
  - intros y [x Hy] n' p'. apply closing_word_miss.
    destruct y as [|d y]; [exact I|].
    rewrite forallb_forall in Hquiet. apply Hquiet. rewrite Hy.
    apply in_or_app. right. now left.
  - intros p'. change (c :: r ++ ws) with ((c :: r) ++ ws). rewrite <- Hcr.
    destruct (closing_word_hit
                (fun n' p'0 s' g' =>
                   run (RSeq (RStar CSpace) (RSeq REol REps)) n' p'0 s'
                       ((1, firstn (n' - 1) s1) :: g')
                       (fun n0 _ _ g0 =>
                          if false && (n0 =? 0) then None else Some (n0, g0)))
                w (1 + length body) p' ws [] Hw) as [q Hq].
    rewrite Hq. rewrite run_seq, run_star.
    rewrite (spaces_to_end false) by (auto; lia).
    f_equal. f_equal.
    + rewrite !length_app. cbn [length]. lia.
    + f_equal. f_equal. unfold s1.
      replace (1 + length body + length (lit w) - 1)
        with (length (body ++ lit w) + 0) by (rewrite length_app; lia).
      rewrite app_assoc, firstn_app_2. cbn [firstn]. now rewrite app_nil_r.
Qed.

Lemma unclosed_paren_needs_open adv prev c s :
  Ascii.eqb "(" c = false ->
  match_at unclosed_paren adv prev (c :: s) = None.
Proof.
  intros Hc. unfold match_at, unclosed_paren. cbn [rseq fold_right].
  rewrite run_seq. cbn [run cmatch]. now rewrite Hc.
Qed.

Lemma unclosed_paren_end adv prev : match_at unclosed_paren adv prev [] = None.
Proof. reflexivity. Qed.

(** A parenthesis left open before Zone, Weakness or Strength at the end
    of the line is closed, and the whitespace after the word is dropped. *)
Theorem close_paren_closes (pre body ws : str) (w : string) :
  ~ In "("%char pre -> ~ In ")"%char body ->
  In w closing_words -> forallb is_space ws = true ->
  close_paren (pre ++ "("%char :: body ++ lit w ++ ws)
  = pre ++ "("%char :: body ++ lit w ++ [")"%char].
Proof.
  intros Hpre Hbody Hw Hws. unfold close_paren, re_sub.
  generalize (@None ascii).
  induction pre as [|c pre IH]; intros prev.
  - cbn [app].
    rewrite (sub_from_hit _ _ _ _ _ (length (body ++ lit w ++ ws))
               [(1, body ++ lit w)])
      by now apply unclosed_paren_at.
    rewrite sub_from_skip_all by (intros p; apply unclosed_paren_end).
    cbn [expand flat_map group Nat.eqb lit list_ascii_of_string app].
    rewrite !app_nil_r. now rewrite <- app_assoc.
  - cbn [app]. rewrite sub_from_miss.
    + f_equal. apply IH. intros H. apply Hpre. now right.
    + apply unclosed_paren_needs_open. apply Ascii.eqb_neq.
      intros E. apply Hpre. now left.
Qed.

Lemma close_paren_closes_witness :
  close_paren (lit "x (Foo Strength Zone ") = lit "x (Foo Strength Zone)".
Proof.
  apply (close_paren_closes (lit "x ") (lit "Foo Strength ") (lit " ") "Zone").
  - vm_compute. intuition discriminate.
  - vm_compute. intuition discriminate.
  - cbn. tauto.
  - reflexivity.
Defined.

(** ** The crop window, exactly (lines 43-48) *)

Module CropExact.
Import Crop CropFacts.
Local Open Scope Z_scope.

(** The shift of [round53] on a number of more than 53 bits, as a power
    of two: [a = 2 ^ (s - 1)]. *)
Lemma round53_shift p :
  2 ^ 53 <= p ->
  exists a, 0 < a /\ 2 ^ (Z.log2 p + 1 - 53) = 2 * a /\
            2 ^ (Z.log2 p + 1 - 53 - 1) = a /\
            a * 2 ^ 53 <= p < a * 2 ^ 54 /\ 0 < Z.log2 p + 1 - 53.
Proof.
  intros Hp.
  assert (H53 : 53 <= Z.log2 p) by (apply Z.log2_le_pow2; lia).
  set (s := Z.log2 p + 1 - 53).
  exists (2 ^ (s - 1)).
  assert (Hs : 0 < s) by (unfold s; lia).
  assert (Ha : 0 < 2 ^ (s - 1)) by (apply Z.pow_pos_nonneg; lia).
  assert (H2 : 2 ^ s = 2 * 2 ^ (s - 1)).
  { replace s with (1 + (s - 1)) at 1 by lia. rewrite Z.pow_add_r by lia.
    reflexivity. }
  destruct (Z.log2_spec p ltac:(lia)) as [Hlo Hhi].
  assert (E1 : 2 ^ Z.log2 p = 2 ^ (s - 1) * 2 ^ 53).
  { rewrite <- Z.pow_add_r by lia. f_equal. unfold s. lia. }
  assert (E2 : 2 ^ Z.succ (Z.log2 p) = 2 ^ (s - 1) * 2 ^ 54).
  { rewrite <- Z.pow_add_r by lia. f_equal. unfold s. lia. }
  rewrite E1 in Hlo. rewrite E2 in Hhi.
  repeat split; auto; lia.
Qed.

(** [round53] is rounding to nearest: the result is within half a unit
    of the last kept bit. *)
Lemma round53_nearest p :
  2 ^ 53 <= p ->
  exists a q,
    0 < a /\ a * 2 ^ 53 <= p < a * 2 ^ 54 /\
    2 ^ (Z.log2 p + 1 - 53) = 2 * a /\
    round53 p = q * (2 * a) /\ - a <= round53 p - p <= a.
Proof.
  intros Hp. destruct (round53_shift p Hp) as [a [Ha [H2a [Hh [Hb Hs]]]]].
  unfold round53. cbv zeta.
  destruct (Z.leb_spec (Z.log2 p + 1 - 53) 0) as [|_]; [lia|].
  rewrite H2a, Hh.
  pose proof (Z.div_mod p (2 * a) ltac:(lia)) as Hdm.
  pose proof (Z.mod_pos_bound p (2 * a) ltac:(lia)) as Hm.
  set (q := p / (2 * a)) in *. set (r := p mod (2 * a)) in *.
  exists a.
  destruct (Z.ltb_spec r a).
  - exists q. repeat split; auto; lia.
  - destruct (Z.ltb_spec a r).
    + exists (q + 1). repeat split; auto; lia.
    + destruct (Z.even q).
      * exists q. repeat split; auto; lia.
      * exists (q + 1). repeat split; auto; lia.
Qed.

(** [int(n * c)] is [Q] when the exact product is close enough above
    [Q] and far enough below [Q + 1]. *)
Lemma int_mul_floor n c Q :
  0 < n < 2 ^ 53 -> 0 < mant c < 2 ^ 53 -> 53 <= expo c ->
  2 ^ 53 <= n * mant c -> 0 <= Q ->
  2 ^ 54 * (Q * 2 ^ expo c - n * mant c) <= n * mant c ->
  (2 ^ 53 + 1) * (n * mant c) < 2 ^ 53 * ((Q + 1) * 2 ^ expo c) ->
  int_mul n c = Q.
Proof.
  intros Hn Hm Hk Hp HQ Hlo Hhi. unfold int_mul.
  rewrite (round53_small n) by lia.
  set (p := n * mant c) in *.
  destruct (round53_nearest p Hp) as [a [q [Ha [Hb [H2a [HR Herr]]]]]].
  pose proof (shift_le n (mant c) (expo c) Hn Hm Hk) as Hs. fold p in Hs.
  set (s := Z.log2 p + 1 - 53) in *.
  assert (Hs0 : 0 < s).
  { destruct (Z.leb_spec s 0); [|assumption].
    assert (2 ^ s <= 2 ^ 0) by (apply Z.pow_le_mono_r; lia).
    change (2 ^ 0) with 1 in *. lia. }
  assert (Hsplit : 2 ^ expo c = 2 ^ (expo c - s) * (2 * a)).
  { rewrite <- H2a, <- Z.pow_add_r by lia. f_equal. lia. }
  assert (Hpow : 0 < 2 ^ (expo c - s)) by (apply Z.pow_pos_nonneg; lia).
  assert (H2k : 0 < 2 ^ expo c) by (apply Z.pow_pos_nonneg; lia).
  set (t := Q * 2 ^ (expo c - s)).
  assert (HT : Q * 2 ^ expo c = t * (2 * a)) by (unfold t; rewrite Hsplit; ring).
  assert (Hlow : Q * 2 ^ expo c <= round53 p).
  { rewrite HT, HR. destruct (Z.le_gt_cases t q) as [|Hlt]; [nia|].
    exfalso. assert (q * (2 * a) + 2 * a <= t * (2 * a)) by nia.
    rewrite HT in Hlo. rewrite HR in Herr. nia. }
  assert (Hup : round53 p < (Q + 1) * 2 ^ expo c) by nia.
  apply Z.le_antisymm.
  - apply Z.lt_succ_r. apply Z.div_lt_upper_bound; [exact H2k|]. lia.
  - apply Z.div_le_lower_bound; [exact H2k|]. lia.
Qed.

Lemma int_mul_0_96 n : 0 <= n < 2 ^ 48 -> int_mul n f_0_96 = 24 * n / 25.
Proof.
  intros Hn.
  destruct (Z.eq_dec n 0) as [->|]; [reflexivity|].
  destruct (Z.eq_dec n 1) as [->|]; [reflexivity|].
  pose proof (Z.div_mod (24 * n) 25 ltac:(lia)) as Hdm.
  pose proof (Z.mod_pos_bound (24 * n) 25 ltac:(lia)) as Hmod.
  set (Q := 24 * n / 25) in *.
  assert (H48 : 2 ^ 48 < 2 ^ 53) by reflexivity.
  apply int_mul_floor; cbn [mant expo f_0_96]; try lia.
Qed.

Lemma int_mul_0_01 n : 0 <= n < 2 ^ 48 -> int_mul n f_0_01 = n / 100.
Proof.
  intros Hn.
  destruct (Z.eq_dec n 0) as [->|]; [reflexivity|].
  destruct (Z.eq_dec n 1) as [->|]; [reflexivity|].
  pose proof (Z.div_mod n 100 ltac:(lia)) as Hdm.
  pose proof (Z.mod_pos_bound n 100 ltac:(lia)) as Hmod.
  set (Q := n / 100) in *.
  assert (H48 : 2 ^ 48 < 2 ^ 53) by reflexivity.
  apply int_mul_floor; cbn [mant expo f_0_01]; try lia.
Qed.

(** For the dimensions of any image, the float arithmetic of lines 44-47
    gives the integer parts of w/2, 24w/25, h/100 and 24h/25. *)
Theorem crop_window_exact (h w : Z) :
  0 <= w < 2 ^ 48 -> 0 <= h < 2 ^ 48 ->
  crop_window h w
  = {| x0 := w / 2; x1 := 24 * w / 25; y0 := h / 100; y1 := 24 * h / 25 |}.
Proof.
  intros Hw Hh. unfold crop_window, x_end, y_start, y_end.
  rewrite !int_mul_0_96, int_mul_0_01 by assumption.
  f_equal. destruct (Z.eq_dec w 0) as [->|]; [reflexivity|].
  apply x_start_half. assert (2 ^ 48 < 2 ^ 53) by reflexivity. lia.
Qed.

Lemma crop_window_exact_witness :
  crop_window 1080 1920 = {| x0 := 960; x1 := 1843; y0 := 10; y1 := 1036 |}.
Proof.
  apply (crop_window_exact 1080 1920); vm_compute; split; congruence.
Defined.

End CropExact.

(** ** Spaces in numbers (lines 158-162) *)

Section Pass.

Variables (r : regex) (t : list titem).

(** [re.sub] copies a stretch of the line in which no match starts. *)
Lemma sub_from_pass rest Y : forall x,
  (forall x1 c x2 p, x = x1 ++ c :: x2 ->
                     match_at r false p (c :: x2 ++ rest) = None) ->
  (forall p, sub_from r t p rest 0 = Y) ->
  forall p, sub_from r t p (x ++ rest) 0 = x ++ Y.
Proof.
  induction x as [|c x IH]; intros Hx HY p.
  - apply HY.
  - cbn [app]. rewrite sub_from_miss by (apply (Hx [] c x); reflexivity).
    f_equal. apply IH; [|exact HY].
    intros x1 d x2 q E. apply (Hx (c :: x1) d x2). now rewrite E.
Qed.

Lemma sub_from_same :
  (forall p, match_at r false p [] = None) ->
  forall x,
  (forall x1 c x2 p, x = x1 ++ c :: x2 -> match_at r false p (c :: x2) = None) ->
  forall p, sub_from r t p x 0 = x.
Proof.
  intros Hend x Hx p. rewrite <- (app_nil_r x) at 1.
  rewrite (sub_from_pass [] []).
  - apply app_nil_r.
  - intros x1 c x2 q E. rewrite app_nil_r. now apply (Hx x1).
  - intros q. now apply sub_from_end.
Qed.

(** After a match, [re.sub] goes on behind it. *)
Lemma sub_from_skip_app Y : forall x y p,
  (forall q, sub_from r t q y 0 = Y) ->
  sub_from r t p (x ++ y) (length x) = Y.
Proof.
  induction x as [|c x IH]; intros y p HY.
  - apply HY.
  - cbn [app length]. rewrite sub_from_skip. now apply IH.
Qed.

End Pass.

Section GreedyStop.

Variables (cs : cset) (K : cont).

(** A repetition that runs into a character it does not accept, where the
    rest of the pattern succeeds. *)
Lemma star_stop : forall m rest n p g res,
  forallb (cmatch cs) m = true ->
  match rest with c :: _ => cmatch cs c = false | [] => True end ->
  (forall p', K (n + length m) p' rest g = Some res) ->
  star cs K n p (m ++ rest) g = Some res.
Proof.
  induction m as [|x m IH]; intros rest n p g res Hm Hrest HK.
  - cbn [app length] in *. rewrite Nat.add_0_r in HK.
    destruct rest as [|c rest]; cbn [star]; [apply HK|].
    rewrite Hrest. apply HK.
  - cbn [forallb] in Hm. apply andb_true_iff in Hm as [Hx Hm].
    cbn [app star]. rewrite Hx.
    rewrite (IH rest (S n) (Some x) g res); auto.
    intros p'. cbn [length] in HK. rewrite Nat.add_succ_r in HK. apply HK.
Qed.

End GreedyStop.

Lemma digit_space_point_needs adv p c s :
  is_digit c && head_is is_space s = false ->
  match_at digit_space_point adv p (c :: s) = None.
Proof.
  intros H. unfold match_at, digit_space_point. re_eval.
  destruct (is_digit c); [|reflexivity]. cbn [andb] in H.
  destruct s as [|d s]; [reflexivity|]. cbn [head_is] in H. now rewrite H.
Qed.

Lemma digit_space_digit_needs adv p c s :
  is_digit c && head_is is_space s = false ->
  match_at digit_space_digit adv p (c :: s) = None.
Proof.
  intros H. unfold match_at, digit_space_digit. re_eval.
  destruct (is_digit c); [|reflexivity]. cbn [andb] in H.
  destruct s as [|d s]; [reflexivity|]. cbn [head_is] in H. now rewrite H.
Qed.

Lemma point_space_digit_needs adv p c s :
  Ascii.eqb "." c && head_is is_space s = false ->
  match_at point_space_digit adv p (c :: s) = None.
Proof.
  intros H. unfold match_at, point_space_digit. re_eval.
  destruct (Ascii.eqb "." c); [|reflexivity]. cbn [andb] in H.
  destruct s as [|d s]; [reflexivity|]. cbn [head_is] in H. now rewrite H.
Qed.

Lemma run_char cs c n p s g k :
  cmatch cs c = true -> run (RChar cs) n p (c :: s) g k = k (S n) (Some c) s g.
Proof. intros H. cbn [run]. now rewrite H. Qed.

Lemma run_plus cs c n p s g k :
  cmatch cs c = true ->
  run (RPlus cs) n p (c :: s) g k = star cs k (S n) (Some c) s g.
Proof. intros H. cbn [run]. now rewrite H. Qed.

Lemma run_eps n p s g k : run REps n p s g k = k n p s g.
Proof. reflexivity. Qed.

Lemma no_gap_after_at f : forall x x1 c x2,
  no_gap_after f x = true -> x = x1 ++ c :: x2 ->
  f c && head_is is_space x2 = false.
Proof.
  induction x as [|d x IH]; intros x1 c x2 H E.
  - now destruct x1.
  - cbn [no_gap_after] in H. apply andb_true_iff in H as [H1 H2].
    destruct x1 as [|e x1]; cbn [app] in E; injection E as -> ->.
    + now apply negb_true_iff in H1.
    + now apply (IH x1 c x2).
Qed.

Lemma no_gap_after_app f : forall x y,
  no_gap_after f x = true -> no_gap_after f y = true ->
  forallb (fun c => negb (f c)) x = true \/ head_is is_space y = false ->
  no_gap_after f (x ++ y) = true.
Proof.
  induction x as [|c x IH]; intros y Hx Hy H; [exact Hy|].
  cbn [no_gap_after app] in *. apply andb_true_iff in Hx as [H1 H2].
  rewrite IH; auto.
  - rewrite andb_true_r. destruct x as [|d x]; [|exact H1].
    cbn [app]. destruct H as [H|H].
    + cbn [forallb] in H. apply andb_true_iff in H as [H _].
      apply negb_true_iff in H. now rewrite H.
    + rewrite H. now rewrite andb_false_r.
  - destruct H as [H|H]; [left|now right].
    cbn [forallb] in H. now apply andb_true_iff in H as [_ H].
Qed.

Lemma no_gap_without_spaces f : forall x,
  forallb (fun c => negb (is_space c)) x = true -> no_gap_after f x = true.
Proof.
  induction x as [|c x IH]; intros H; [reflexivity|].
  cbn [forallb no_gap_after] in *. apply andb_true_iff in H as [H1 H2].
  rewrite (IH H2), andb_true_r. destruct x as [|d x].
  - cbn. now rewrite andb_false_r.
  - cbn [forallb] in H2. apply andb_true_iff in H2 as [H2 _].
    apply negb_true_iff in H2. cbn [head_is]. now rewrite H2, andb_false_r.
Qed.

Lemma no_gap_without f : forall x,
  forallb (fun c => negb (f c)) x = true -> no_gap_after f x = true.
Proof.
  induction x as [|c x IH]; intros H; [reflexivity|].
  cbn [forallb no_gap_after] in *. apply andb_true_iff in H as [H1 H2].
  rewrite (IH H2), andb_true_r. apply negb_true_iff in H1. now rewrite H1.
Qed.

(** Each of the three rules leaves a line alone when nothing for it to
    start on stands before whitespace. *)
Lemma fix_space_before_point_same x :
  no_gap_after is_digit x = true ->
  forall p, sub_from digit_space_point [TGroup 1; TLit (lit ".")] p x 0 = x.
Proof.
  intros H. apply sub_from_same; [reflexivity|].
  intros x1 c x2 p E. apply digit_space_point_needs.
  now apply (no_gap_after_at is_digit x x1).
Qed.

Lemma fix_digit_spaces_same x :
  no_gap_after is_digit x = true ->
  forall p, sub_from digit_space_digit [TGroup 1; TGroup 2] p x 0 = x.
Proof.
  intros H. apply sub_from_same; [reflexivity|].
  intros x1 c x2 p E. apply digit_space_digit_needs.
  now apply (no_gap_after_at is_digit x x1).
Qed.

Lemma fix_space_after_point_same x :
  no_gap_after (Ascii.eqb ".") x = true ->
  forall p, sub_from point_space_digit [TLit (lit "."); TGroup 1] p x 0 = x.
Proof.
  intros H. apply sub_from_same; [reflexivity|].
  intros x1 c x2 p E. apply point_space_digit_needs.
  now apply (no_gap_after_at (Ascii.eqb ".") x x1).
Qed.

Lemma run_char_cons cs c n p s g k :
  run (RChar cs) n p (c :: s) g k
  = if cmatch cs c then k (S n) (Some c) s g else None.
Proof. reflexivity. Qed.

Lemma run_plus_cons cs c n p s g k :
  run (RPlus cs) n p (c :: s) g k
  = if cmatch cs c then star cs k (S n) (Some c) s g else None.
Proof. reflexivity. Qed.

Lemma digit_space_point_no_point adv p s :
  ~ In "."%char s -> match_at digit_space_point adv p s = None.
Proof.
  intros Hs. unfold match_at, digit_space_point. cbn [rseq fold_right].
  rewrite run_seq, run_group. destruct s as [|c s]; [reflexivity|].
  rewrite run_char_cons. destruct (cmatch CDigit c); [|reflexivity].
  rewrite run_seq. destruct s as [|w s]; [reflexivity|].
  rewrite run_plus_cons. destruct (cmatch CSpace w); [|reflexivity].
  apply star_none. intros y [x Hy] n' p'. rewrite run_seq.
  destruct y as [|e y]; [reflexivity|]. cbn [run cmatch].
  destruct (Ascii.eqb "." e) eqn:E; [|reflexivity].
  apply Ascii.eqb_eq in E. subst e. exfalso. apply Hs.
  right. right. rewrite Hy. apply in_or_app. right. now left.
Qed.

Section Numbers.

Variables (d : ascii) (ws : str).
Hypothesis Hd : is_digit d = true.
Hypothesis Hws : forallb is_space ws = true.
Hypothesis Hne : ws <> [].

Lemma digit_space_point_at p rest :
  match_at digit_space_point false p (d :: ws ++ "."%char :: rest)
  = Some (S (length (ws ++ ["."%char])), [(1, [d])]).
Proof.
  unfold match_at, digit_space_point. cbn [rseq fold_right].
  rewrite run_seq, run_group, run_char by exact Hd.
  destruct ws as [|w ws']; [congruence|].
  cbn [forallb] in Hws. apply andb_true_iff in Hws as [Hw Hws'].
  cbn [app]. rewrite run_seq, run_plus by exact Hw.
  erewrite (star_stop CSpace _ ws' ("."%char :: rest)); [reflexivity | exact Hws' | reflexivity |].
  intros p'. rewrite run_seq, run_char by apply Ascii.eqb_refl.
  rewrite run_eps. cbn [andb firstn Nat.sub]. f_equal. f_equal.
  cbn [length]. rewrite length_app. cbn [length]. lia.
Qed.

Lemma point_space_digit_at p e rest :
  is_digit e = true ->
  match_at point_space_digit false p ("."%char :: ws ++ e :: rest)
  = Some (S (length (ws ++ [e])), [(1, [e])]).
Proof.
  intros He. unfold match_at, point_space_digit. cbn [rseq fold_right].
  rewrite run_seq, run_char by apply Ascii.eqb_refl.
  destruct ws as [|w ws']; [congruence|].
  cbn [forallb] in Hws. apply andb_true_iff in Hws as [Hw Hws'].
  cbn [app]. rewrite run_seq, run_plus by exact Hw.
  erewrite (star_stop CSpace _ ws' (e :: rest));
    [reflexivity | exact Hws' | now apply digit_not_space |].
  intros p'. rewrite run_seq, run_group, run_char by exact He.
  rewrite run_eps. cbn [andb]. f_equal. f_equal.
  - cbn [length]. rewrite length_app. cbn [length]. lia.
  - f_equal. f_equal.
    replace (S (2 + length ws') - (2 + length ws')) with 1 by lia.
    reflexivity.
Qed.

Lemma digit_space_digit_at p e rest :
  is_digit e = true ->
  match_at digit_space_digit false p (d :: ws ++ e :: rest)
  = Some (S (length (ws ++ [e])), [(2, [e]); (1, [d])]).
Proof.
  intros He. unfold match_at, digit_space_digit. cbn [rseq fold_right].
  rewrite run_seq, run_group, run_char by exact Hd.
  destruct ws as [|w ws']; [congruence|].
  cbn [forallb] in Hws. apply andb_true_iff in Hws as [Hw Hws'].
  cbn [app]. rewrite run_seq, run_plus by exact Hw.
  erewrite (star_stop CSpace _ ws' (e :: rest));
    [reflexivity | exact Hws' | now apply digit_not_space |].
  intros p'. rewrite run_seq, run_group, run_char by exact He.
  rewrite run_eps. cbn [andb]. f_equal. f_equal.
  - cbn [length]. rewrite length_app. cbn [length]. lia.
  - f_equal. f_equal.
    replace (S (2 + length ws') - (2 + length ws')) with 1 by lia.
    reflexivity.
Qed.

End Numbers.

Lemma digit_not_point c : is_digit c = true -> Ascii.eqb "." c = false.
Proof.
  destruct c as [[|] [|] [|] [|] [|] [|] [|] [|]]; vm_compute; congruence.
Qed.

Lemma space_not_point c : is_space c = true -> Ascii.eqb "." c = false.
Proof.
  destruct c as [[|] [|] [|] [|] [|] [|] [|] [|]]; vm_compute; congruence.
Qed.

Lemma spaces_are_not_digits c : is_space c = true -> is_digit c = false.
Proof.
  destruct c as [[|] [|] [|] [|] [|] [|] [|] [|]]; vm_compute; congruence.
Qed.

Lemma forallb_impl {A} (f g : A -> bool) (l : list A) :
  (forall x, f x = true -> g x = true) ->
  forallb f l = true -> forallb g l = true.
Proof.
  intros H Hl. apply forallb_forall. intros x Hx. apply H.
  rewrite forallb_forall in Hl. now apply Hl.
Qed.

Lemma digits_no_space a :
  forallb is_digit a = true -> forallb (fun c => negb (is_space c)) a = true.
Proof.
  apply forallb_impl. intros x H. now rewrite (digit_not_space x H).
Qed.

Lemma number_no_space a b :
  forallb is_digit a = true -> forallb is_digit b = true ->
  forallb (fun c => negb (is_space c)) (a ++ "."%char :: b) = true.
Proof.
  intros Ha Hb. rewrite forallb_app. cbn [forallb].
  now rewrite !digits_no_space.
Qed.

Lemma number_after_point a b :
  forallb is_digit a = true -> forallb is_digit b = true ->
  fix_space_after_point (a ++ "."%char :: b) = a ++ "."%char :: b.
Proof.
  intros Ha Hb.
  now apply fix_space_after_point_same, no_gap_without_spaces, number_no_space.
Qed.

Lemma number_digit_spaces a b :
  forallb is_digit a = true -> forallb is_digit b = true ->
  fix_digit_spaces (a ++ "."%char :: b) = a ++ "."%char :: b.
Proof.
  intros Ha Hb.
  now apply fix_digit_spaces_same, no_gap_without_spaces, number_no_space.
Qed.

Lemma digits_pass_digit (x rest : str) (e : ascii) :
  forallb is_digit x = true -> is_digit e = true ->
  forall x1 c x2, x = x1 ++ c :: x2 ->
                  is_digit c && head_is is_space (x2 ++ e :: rest) = false.
Proof.
  intros Hx He x1 c x2 E.
  assert (Hh : head_is is_space (x2 ++ e :: rest) = false).
  { destruct x2 as [|y x2]; cbn [app head_is]; [now apply digit_not_space|].
    apply digit_not_space. rewrite forallb_forall in Hx. apply Hx.
    rewrite E. apply in_or_app. right. right. now left. }
  rewrite Hh. apply andb_false_r.
Qed.

Section Number.

Variables (a' b' ws : str) (d e : ascii).
Hypothesis Ha : forallb is_digit a' = true.
Hypothesis Hb : forallb is_digit b' = true.
Hypothesis Hd : is_digit d = true.
Hypothesis He : is_digit e = true.
Hypothesis Hws : forallb is_space ws = true.
Hypothesis Hwne : ws <> [].

Lemma digits_snoc : forallb is_digit (a' ++ [d]) = true.
Proof. rewrite forallb_app, Ha. cbn [forallb]. now rewrite Hd. Qed.

Lemma digits_cons : forallb is_digit (e :: b') = true.
Proof. cbn [forallb]. now rewrite He. Qed.

Lemma gap_before_point :
  fix_number_spaces ((a' ++ [d]) ++ ws ++ "."%char :: e :: b')
  = (a' ++ [d]) ++ "."%char :: e :: b'.
Proof.
  unfold fix_number_spaces.
  assert (H1 : fix_space_before_point
                 ((a' ++ [d]) ++ ws ++ "."%char :: e :: b')
               = (a' ++ [d]) ++ "."%char :: e :: b').
  { rewrite <- !app_assoc. cbn [app].
    unfold fix_space_before_point, re_sub.
    apply sub_from_pass.
    - intros x1 c x2 p E. apply digit_space_point_needs.
      now apply (digits_pass_digit a' _ d Ha Hd x1).
    - intros p.
      rewrite (sub_from_hit _ _ _ _ _ (length (ws ++ ["."%char])) [(1, [d])])
        by now apply digit_space_point_at.
      replace (ws ++ "."%char :: e :: b') with ((ws ++ ["."%char]) ++ e :: b')
        by now rewrite <- app_assoc.
      rewrite (sub_from_skip_app _ _ (e :: b')).
      + reflexivity.
      + apply fix_space_before_point_same, no_gap_without_spaces.
        apply digits_no_space, digits_cons. }
  rewrite H1, number_after_point by (apply digits_snoc || apply digits_cons).
  apply number_digit_spaces; [apply digits_snoc | apply digits_cons].
Qed.

Lemma gap_after_point :
  fix_number_spaces ((a' ++ [d]) ++ "."%char :: ws ++ e :: b')
  = (a' ++ [d]) ++ "."%char :: e :: b'.
Proof.
  unfold fix_number_spaces.
  assert (Hnd : forallb (fun c => negb (is_digit c)) ws = true).
  { apply (forallb_impl is_space); [|exact Hws].
    intros x Hx. now rewrite (spaces_are_not_digits x Hx). }
  assert (H1 : fix_space_before_point
                 ((a' ++ [d]) ++ "."%char :: ws ++ e :: b')
               = (a' ++ [d]) ++ "."%char :: ws ++ e :: b').
  { apply fix_space_before_point_same.
    apply no_gap_after_app; [| | now right].
    - apply no_gap_without_spaces, digits_no_space, digits_snoc.
    - cbn [no_gap_after]. change (is_digit ".") with false. cbn [andb negb].
      apply no_gap_after_app.
      + now apply no_gap_without.
      + apply no_gap_without_spaces, digits_no_space, digits_cons.
      + now left. }
  rewrite H1.
  assert (H2 : fix_space_after_point
                 ((a' ++ [d]) ++ "."%char :: ws ++ e :: b')
               = (a' ++ [d]) ++ "."%char :: e :: b').
  { unfold fix_space_after_point, re_sub.
    apply sub_from_pass.
    - intros x1 c x2 p E. apply point_space_digit_needs.
      rewrite digit_not_point; [reflexivity|].
      pose proof digits_snoc as Hf. rewrite forallb_forall in Hf. apply Hf.
      rewrite E. apply in_or_app. right. now left.
    - intros p.
      rewrite (sub_from_hit _ _ _ _ _ (length (ws ++ [e])) [(1, [e])])
        by now apply point_space_digit_at.
      replace (ws ++ e :: b') with ((ws ++ [e]) ++ b')
        by now rewrite <- app_assoc.
      rewrite (sub_from_skip_app _ _ b').
      + reflexivity.
      + apply fix_space_after_point_same, no_gap_without_spaces.
        now apply digits_no_space. }
  rewrite H2. apply number_digit_spaces; [apply digits_snoc | apply digits_cons].
Qed.

Lemma gap_between_digits :
  fix_number_spaces ((a' ++ [d]) ++ ws ++ e :: b') = (a' ++ [d]) ++ e :: b'.
Proof.
  unfold fix_number_spaces.
  assert (Hnp : ~ In "."%char ((a' ++ [d]) ++ ws ++ e :: b')).
  { pose proof digits_snoc as Hfa. pose proof digits_cons as Hfb.
    intros H. apply in_app_or in H as [H|H]; [|apply in_app_or in H as [H|H]].
    - rewrite forallb_forall in Hfa. specialize (Hfa _ H). discriminate.
    - rewrite forallb_forall in Hws. specialize (Hws _ H). discriminate.
    - rewrite forallb_forall in Hfb. specialize (Hfb _ H). discriminate. }
  assert (H1 : fix_space_before_point ((a' ++ [d]) ++ ws ++ e :: b')
               = (a' ++ [d]) ++ ws ++ e :: b').
  { apply sub_from_same; [reflexivity|].
    intros x1 c x2 p E. apply digit_space_point_no_point.
    intros H. apply Hnp. rewrite E. apply in_or_app. now right. }
  rewrite H1.
  assert (H2 : fix_space_after_point ((a' ++ [d]) ++ ws ++ e :: b')
               = (a' ++ [d]) ++ ws ++ e :: b').
  { apply fix_space_after_point_same, no_gap_without.
    apply forallb_forall. intros x Hx. apply negb_true_iff.
    apply Ascii.eqb_neq. intros E. apply Hnp. now subst x. }
  rewrite H2. rewrite <- !app_assoc. cbn [app].
  unfold fix_digit_spaces, re_sub. apply sub_from_pass.
  - intros x1 c x2 p E. apply digit_space_digit_needs.
    now apply (digits_pass_digit a' _ d Ha Hd x1).
  - intros p.
    rewrite (sub_from_hit _ _ _ _ _ (length (ws ++ [e])) [(2, [e]); (1, [d])])
      by now apply digit_space_digit_at.
    replace (ws ++ e :: b') with ((ws ++ [e]) ++ b') by now rewrite <- app_assoc.
    rewrite (sub_from_skip_app _ _ b').
    + reflexivity.
    + apply fix_digit_spaces_same, no_gap_without_spaces.
      now apply digits_no_space.
Qed.

End Number.

(** The numeric repair on any number: whitespace before the point, after
    the point, or between two digits is taken out. *)
Theorem number_spacing (a b ws : str) :
  a <> [] -> b <> [] -> ws <> [] ->
  forallb is_digit a = true -> forallb is_digit b = true ->
  forallb is_space ws = true ->
  fix_number_spaces (a ++ ws ++ "."%char :: b) = a ++ "."%char :: b /\
  fix_number_spaces (a ++ "."%char :: ws ++ b) = a ++ "."%char :: b /\
  fix_number_spaces (a ++ ws ++ b) = a ++ b.
Proof.
  intros Hane Hbne Hwne Ha Hb Hws.
  destruct (exists_last Hane) as [a' [d ->]].
  destruct b as [|e b']; [congruence|].
  rewrite forallb_app in Ha. apply andb_true_iff in Ha as [Ha Hd].
  cbn [forallb] in Hd, Hb. rewrite andb_true_r in Hd.
  apply andb_true_iff in Hb as [He Hb].
  split; [|split].
  - now apply gap_before_point.
  - now apply gap_after_point.
  - now apply gap_between_digits.
Qed.

Lemma number_spacing_witness :
  fix_number_spaces (lit "24806  .75") = lit "24806.75" /\
  fix_number_spaces (lit "24806.  75") = lit "24806.75" /\
  fix_number_spaces (lit "24806  75") = lit "2480675".
Proof.
  apply (number_spacing (lit "24806") (lit "75") (lit "  "));
    try discriminate; reflexivity.
Defined.
